(** * member-access-except-decorators: the rule walker, embedded and verified

    A shallow embedding of [src/memberAccessExceptDecoratorsRule.ts].  The rule
    consumes a parsed TypeScript tree, so the embedding starts with the part of
    the [ts.Node] interface the rule reads, then the helpers the rule imports
    from [typescript], [tsutils] and [tslint] (written after the behaviour of
    those libraries, which are not part of the repository), then the rule
    itself: [FAILURE_STRING_FACTORY], [shouldCheck], [check],
    [getInsertionPosition], [typeToString], [recur], [walk] and [apply].

    The walk mutates its context and can throw, so it is written in a small
    state-and-error monad over [WalkContext]. *)

From Stdlib Require Import List ZArith String Ascii Bool Lia.
Import ListNotations.

Local Open Scope string_scope.
Local Open Scope list_scope.
Local Open Scope Z_scope.

Set Implicit Arguments.

(** ** Syntax kinds *)

(** The members of [ts.SyntaxKind] that class bodies are made of.  The two
    catch-all constructors stand for every other token kind and every other
    node kind, so that statements quantified over "any other kind" range over
    the whole enumeration. *)
Inductive SyntaxKind : Set :=
  (* tokens: FirstToken .. LastToken *)
  | EndOfFileToken | NumericLiteral | StringLiteral
  | OpenBraceToken | CloseBraceToken | OpenParenToken | CloseParenToken
  | OpenBracketToken | CloseBracketToken | SemicolonToken | CommaToken
  | ColonToken | AtToken | AsteriskToken | EqualsToken | QuestionToken
  | Identifier
  | ClassKeyword | ConstructorKeyword | GetKeyword | SetKeyword
  | PublicKeyword | PrivateKeyword | ProtectedKeyword
  | StaticKeyword | ReadonlyKeyword | AbstractKeyword | AsyncKeyword
  | NumberKeyword | StringKeyword
  | OtherToken (code : nat)
  (* nodes *)
  | ComputedPropertyName | Parameter_ | Decorator
  | PropertyDeclaration | MethodDeclaration | Constructor
  | GetAccessor | SetAccessor | IndexSignature
  | CallExpression | ClassExpression | Block
  | ClassDeclaration | SemicolonClassElement
  | SourceFile | JSDocComment | SyntaxList
  | OtherNode (code : nat).

Definition SyntaxKind_eq_dec (a b : SyntaxKind) : {a = b} + {a <> b}.
Proof. decide equality; apply Nat.eq_dec. Defined.

(** [a === b] on kinds. *)
Definition kind_eqb (a b : SyntaxKind) : bool :=
  if SyntaxKind_eq_dec a b then true else false.

Infix "===" := kind_eqb (at level 70, no associativity).

(** tsutils [isTokenKind]: [kind >= FirstToken && kind <= LastToken]. *)
Definition isTokenKind (k : SyntaxKind) : bool :=
  match k with
  | EndOfFileToken | NumericLiteral | StringLiteral
  | OpenBraceToken | CloseBraceToken | OpenParenToken | CloseParenToken
  | OpenBracketToken | CloseBracketToken | SemicolonToken | CommaToken
  | ColonToken | AtToken | AsteriskToken | EqualsToken | QuestionToken
  | Identifier
  | ClassKeyword | ConstructorKeyword | GetKeyword | SetKeyword
  | PublicKeyword | PrivateKeyword | ProtectedKeyword
  | StaticKeyword | ReadonlyKeyword | AbstractKeyword | AsyncKeyword
  | NumberKeyword | StringKeyword
  | OtherToken _ => true
  | _ => false
  end.

(** ** Nodes *)

(** [ts.NodeArray]: a list of nodes with the text range it spans. *)
Record NodeArray (A : Type) : Type := mkNodeArray {
  na_pos : Z;
  na_end : Z;
  na_elems : list A
}.

(** The view of [ts.Node] the rule reads.  [pos] is the full start (leading
    trivia included), [end_] the end offset.  [text] is the identifier or
    literal text of a name node and the whole source text of a [SourceFile].
    [decorators], [modifiers] and [name] are [None] where the TypeScript
    property is [undefined].  [astChildren] lists, in order, the nodes that
    [ts.forEachChild] hands to its callback; [getChildren] is the result of
    [node.getChildren(sourceFile)], tokens and syntax lists included. *)
#[local] Unset Elimination Schemes.
Inductive Node : Type := mkNode {
  kind : SyntaxKind;
  pos : Z;
  end_ : Z;
  text : string;
  decorators : option (NodeArray Node);
  modifiers : option (NodeArray Node);
  name : option Node;
  members : list Node;
  astChildren : list Node;
  getChildren : list Node
}.
#[local] Set Elimination Schemes.

(** ** Source positions: [skipTrivia] and [getStart] *)

Definition isWhiteSpaceSingleLine (c : ascii) : bool :=
  match nat_of_ascii c with
  | 32%nat (* space *) | 9%nat (* tab *) | 11%nat (* vertical tab *)
  | 12%nat (* form feed *) => true
  | _ => false
  end.

Definition isLineBreak (c : ascii) : bool :=
  match nat_of_ascii c with
  | 10%nat (* line feed *) | 13%nat (* carriage return *) => true
  | _ => false
  end.

Inductive TriviaMode : Set := InCode | InLineComment | InBlockComment.

(** The number of characters of trivia at the head of [s]: the scanning loop
    of TypeScript's [skipTrivia] over white space, line breaks, [//] comments
    and block comments.  ([skipTrivia] also steps over merge-conflict markers,
    a shebang line and non-ASCII white space, which are left out here.) *)
Fixpoint triviaLength (mode : TriviaMode) (s : string) : nat :=
  match s with
  | EmptyString => 0%nat
  | String c s' =>
    match mode with
    | InCode =>
      if isLineBreak c || isWhiteSpaceSingleLine c then S (triviaLength InCode s')
      else if Ascii.eqb c "/" then
        match s' with
        | String d s'' =>
          if Ascii.eqb d "/" then S (S (triviaLength InLineComment s''))
          else if Ascii.eqb d "*" then S (S (triviaLength InBlockComment s''))
          else 0%nat
        | EmptyString => 0%nat
        end
      else 0%nat
    | InLineComment =>
      if isLineBreak c then S (triviaLength InCode s')
      else S (triviaLength InLineComment s')
    | InBlockComment =>
      if Ascii.eqb c "*" then
        match s' with
        | String d s'' =>
          if Ascii.eqb d "/" then S (S (triviaLength InCode s''))
          else S (triviaLength InBlockComment s')
        | EmptyString => 1%nat
        end
      else S (triviaLength InBlockComment s')
    end
  end.

Fixpoint dropString (n : nat) (s : string) : string :=
  match n, s with
  | O, _ => s
  | S n', String _ s' => dropString n' s'
  | S _, EmptyString => EmptyString
  end.

(** [ts.skipTrivia(text, pos)]; a synthesized (negative) position is returned
    as it is. *)
Definition skipTrivia (txt : string) (p : Z) : Z :=
  if p <? 0 then p
  else p + Z.of_nat (triviaLength InCode (dropString (Z.to_nat p) txt)).

(** TypeScript's [nodeIsMissing]: an empty node other than the end of file,
    which the parser made up where the source lacks one. *)
Definition nodeIsMissing (node : Node) : bool :=
  (pos node =? end_ node) && (pos node >=? 0)
  && negb (kind node === EndOfFileToken).

(** [node.getStart(sourceFile)]: the position of a missing node, and for any
    other node the end of the trivia that follows its full start.  (The
    cases of JSDoc nodes and syntax lists are left out: the rule asks for
    the start of members, names and tokens only.) *)
Definition getStart (node sourceFile : Node) : Z :=
  if nodeIsMissing node then pos node
  else skipTrivia (text sourceFile) (pos node).

(** [node.getEnd()] *)
Definition getEnd (node : Node) : Z := end_ node.

(** ** Helpers imported from tsutils *)

(** [isClassLikeDeclaration(node)] *)
Definition isClassLikeDeclaration (node : Node) : bool :=
  (kind node === ClassDeclaration) || (kind node === ClassExpression).

(** [kinds.includes(k)] *)
Definition includes (kinds : list SyntaxKind) (k : SyntaxKind) : bool :=
  existsb (fun k' => k' === k) kinds.

(** [hasModifier(modifiers, ...kinds)]: [false] when [modifiers] is undefined,
    otherwise whether some modifier has one of the kinds. *)
Definition hasModifier (mods : option (NodeArray Node))
    (kinds : list SyntaxKind) : bool :=
  match mods with
  | None => false
  | Some arr => existsb (fun modifier => includes kinds (kind modifier)) (na_elems arr)
  end.

(** [getModifier(node, kind)]: the first modifier of that kind, or undefined. *)
Definition getModifier (node : Node) (k : SyntaxKind) : option Node :=
  match modifiers node with
  | None => None
  | Some arr => find (fun modifier => kind modifier === k) (na_elems arr)
  end.

(** [getChildOfKind(node, kind, sourceFile)]: the first child of that kind. *)
Definition getChildOfKind (node : Node) (k : SyntaxKind) : option Node :=
  find (fun child => kind child === k) (getChildren node).

(** The [for] loop of [getTokenAtPositionWorker] over the children of the
    current node: the first child with [child.end > pos] (JSDoc comments
    skipped unless [allowJsDoc]) is returned when it is a token and entered
    with [descend] otherwise; without such a child the result is undefined. *)
Fixpoint scanChildren (descend : Node -> option Node) (p : Z)
    (allowJsDoc : bool) (cs : list Node) : option Node :=
  match cs with
  | [] => None
  | child :: rest =>
    if (end_ child >? p) && (allowJsDoc || negb (kind child === JSDocComment))
    then if isTokenKind (kind child) then Some child else descend child
    else scanChildren descend p allowJsDoc rest
  end.

(** [getTokenAtPositionWorker]: the descent to the first token that ends after
    [p]; entering a child restarts the loop on that child. *)
Fixpoint getTokenAtPositionWorker (node : Node) (p : Z) (allowJsDoc : bool)
    : option Node :=
  scanChildren (fun child => getTokenAtPositionWorker child p allowJsDoc)
               p allowJsDoc (getChildren node).

(** [getTokenAtPosition(parent, pos, sourceFile)], [allowJsDoc] left out by
    the caller and therefore false. *)
Definition getTokenAtPosition (parent : Node) (p : Z) : option Node :=
  if (p <? pos parent) || (p >=? end_ parent) then None
  else if isTokenKind (kind parent) then Some parent
  else getTokenAtPositionWorker parent p false.

(** ** The tslint side: failures, fixes and the walk context *)

(** [Lint.Replacement] *)
Record Replacement : Set := mkReplacement {
  r_start : Z;
  r_length : Z;
  r_text : string
}.

(** [Lint.Replacement.appendText(start, text)] *)
Definition appendText (start : Z) (txt : string) : Replacement :=
  mkReplacement start 0 txt.

(** [Lint.RuleFailure]: start and end offset, message and fix. *)
Record RuleFailure : Set := mkRuleFailure {
  startPosition : Z;
  endPosition : Z;
  failure : string;
  fix_ : option Replacement
}.

(** What a run can throw: the [Error] of [typeToString], and the [TypeError]
    JavaScript raises when a method is called on [undefined] (the two
    non-null assertions of the source are erased at run time). *)
Inductive Error : Set :=
  | UnhandledNodeType (k : SyntaxKind)
  | TypeError.

(** [Lint.WalkContext<void>]: the source file and the failures pushed so far. *)
Record WalkContext : Type := mkWalkContext {
  sourceFile : Node;
  failures : list RuleFailure
}.

(** Computations over the walk context that may throw. *)
Definition M (A : Type) : Type := WalkContext -> Error + (A * WalkContext).

Definition ret {A} (a : A) : M A := fun ctx => inr (a, ctx).

Definition bind {A B} (m : M A) (k : A -> M B) : M B :=
  fun ctx =>
    match m ctx with
    | inl e => inl e
    | inr (a, ctx') => k a ctx'
    end.

Definition throw {A} (e : Error) : M A := fun _ => inl e.

Notation "x <- m ;; k" := (bind m (fun x => k))
  (at level 61, m at next level, right associativity).
Notation "m ;;; k" := (bind m (fun _ => k))
  (at level 61, right associativity).

(** [ctx.addFailure(start, end, failure, fix)]: both offsets are clamped to
    the length of the file and the failure is pushed. *)
Definition addFailure (start end' : Z) (msg : string) (fx : Replacement) : M unit :=
  fun ctx =>
    let fileLength := end_ (sourceFile ctx) in
    inr (tt, mkWalkContext (sourceFile ctx)
               (failures ctx ++
                [mkRuleFailure (Z.min start fileLength) (Z.min end' fileLength)
                               msg (Some fx)])).

(** [ctx.addFailureAtNode(node, failure, fix)]; [node.getStart] on an
    undefined node throws. *)
Definition addFailureAtNode (node : option Node) (msg : string)
    (fx : Replacement) : M unit :=
  fun ctx =>
    match node with
    | None => throw TypeError ctx
    | Some n => addFailure (getStart n (sourceFile ctx)) (getEnd n) msg fx ctx
    end.

(** A call that returns or throws without touching the context. *)
Definition liftE {A} (r : Error + A) : M A :=
  fun ctx => match r with inl e => inl e | inr a => inr (a, ctx) end.

(** [ctx.sourceFile] *)
Definition getSourceFile : M Node := fun ctx => inr (sourceFile ctx, ctx).

(** A [for (const x of xs) body] loop. *)
Fixpoint forOf {A} (xs : list A) (body : A -> M unit) : M unit :=
  match xs with
  | [] => ret tt
  | x :: rest => body x ;;; forOf rest body
  end.

(** The iteration of [ts.forEachChild] over the children: [cb] is called on
    each in order; the first truthy result stops the iteration and is
    returned, and the result is undefined when no call returns one. *)
Fixpoint forEachNode {T} (cb : Node -> M (option T)) (cs : list Node)
    : M (option T) :=
  match cs with
  | [] => ret None
  | c :: rest =>
    r <- cb c ;;
    match r with
    | Some v => ret (Some v)
    | None => forEachNode cb rest
    end
  end.

(** [ts.forEachChild(node, cb)] *)
Definition forEachChild {T} (node : Node) (cb : Node -> M (option T))
    : M (option T) :=
  forEachNode cb (astChildren node).

(** ** The rule *)

Module Rule.

(** [Rule.FAILURE_STRING_FACTORY(memberType, memberName)] *)
Definition FAILURE_STRING_FACTORY (memberType : string)
    (memberName : option string) : string :=
  let memberName :=
    match memberName with
    | None => ""
    | Some n => String.append " '" (String.append n "'")
    end in
  String.append "The "
    (String.append memberType
       (String.append memberName
          " must be marked either 'private', 'public', or 'protected'")).

End Rule.

(** [shouldCheck(node)] *)
Definition shouldCheck (node : Node) : bool :=
  match kind node with
  | GetAccessor
  | SetAccessor
  | MethodDeclaration => true
  | PropertyDeclaration =>
    match decorators node with None => true | Some _ => false end
  | _ => false
  end.

(** [typeToString(node)] *)
Definition typeToString (node : Node) : Error + string :=
  match kind node with
  | MethodDeclaration => inr "class method"
  | PropertyDeclaration => inr "class property"
  | GetAccessor => inr "get property accessor"
  | SetAccessor => inr "set property accessor"
  | Parameter_ => inr "parameter property"
  | k => inl (UnhandledNodeType k)
  end.

(** [getInsertionPosition(member, sourceFile)] *)
Definition getInsertionPosition (member sourceFile : Node) : Error + Z :=
  let node :=
    match decorators member with
    | None => Some member
    | Some ds => getTokenAtPosition member (na_end ds)
    end in
  match node with
  | Some n => inr (getStart n sourceFile)
  | None => inl TypeError
  end.

(** [check(node)].  The arguments of [ctx.addFailureAtNode] are evaluated left
    to right, so [typeToString] throws before [getInsertionPosition] is
    called, and both before the failure is added. *)
Definition check (node : Node) : M unit :=
  if hasModifier (modifiers node) [ProtectedKeyword; PrivateKeyword]
  then ret tt
  else
    let publicKeyword := getModifier node PublicKeyword in
    match publicKeyword with
    | Some _ => ret tt
    | None =>
      let nameNode :=
        if kind node === Constructor
        then getChildOfKind node ConstructorKeyword
        else match name node with
             | Some n => Some n
             | None => Some node
             end in
      let memberName :=
        match name node with
        | Some n => if kind n === Identifier then Some (text n) else None
        | None => None
        end in
      memberType <- liftE (typeToString node) ;;
      sf <- getSourceFile ;;
      insertion <- liftE (getInsertionPosition node sf) ;;
      addFailureAtNode nameNode
        (Rule.FAILURE_STRING_FACTORY memberType memberName)
        (appendText insertion "public ")
    end.

(** The callback [recur] of [walk]: the members of a class-like declaration
    are checked, then the node's children are visited. *)
Fixpoint recur (node : Node) : M (option unit) :=
  (if isClassLikeDeclaration node
   then forOf (members node)
          (fun child => if shouldCheck child then check child else ret tt)
   else ret tt) ;;;
  forEachChild node recur.

(** [walk(ctx)] *)
Definition walk : M (option unit) :=
  sf <- getSourceFile ;;
  forEachChild sf recur.

(** [rule.apply(sourceFile)], through [applyWithFunction]: a fresh context is
    walked and its failures are returned. *)
Definition apply (sf : Node) : Error + list RuleFailure :=
  match walk (mkWalkContext sf []) with
  | inl e => inl e
  | inr (_, ctx) => inr (failures ctx)
  end.

(** ** Vocabulary of the specification *)

(** The body of the loop over [node.members]. *)
Definition checkMember (child : Node) : M unit :=
  if shouldCheck child then check child else ret tt.

(** What [recur] does at a node before it descends. *)
Definition visit (node : Node) : M unit :=
  if isClassLikeDeclaration node then forOf (members node) checkMember
  else ret tt.

Definition isVisibilityKeyword (k : SyntaxKind) : bool :=
  match k with
  | PublicKeyword | PrivateKeyword | ProtectedKeyword => true
  | _ => false
  end.

(** The member carries an explicit [public], [private] or [protected]. *)
Definition hasVisibility (node : Node) : bool :=
  match modifiers node with
  | None => false
  | Some arr => existsb (fun m => isVisibilityKeyword (kind m)) (na_elems arr)
  end.

(** [check node] run in [ctx] pushes the failure [f]. *)
Definition emits (node : Node) (ctx : WalkContext) (f : RuleFailure) : Prop :=
  exists ctx', check node ctx = inr (tt, ctx')
               /\ failures ctx' = failures ctx ++ [f].

(** The failures the loop body pushes for one member of a class of the file
    [sf], taken from a run in a context that has none yet. *)
Definition memberDiagnostics (sf member : Node) : list RuleFailure :=
  match checkMember member (mkWalkContext sf []) with
  | inr (_, ctx) => failures ctx
  | inl _ => []
  end.

(** The nodes of a tree in depth-first pre-order: a node, then the subtrees of
    its children from left to right. *)
Fixpoint preorder (n : Node) : list Node :=
  n :: flat_map preorder (astChildren n).

(** Every node below the root, in pre-order. *)
Definition descendants (sf : Node) : list Node :=
  flat_map preorder (astChildren sf).

(** Tree addresses: the child indices on the way down from the root. *)
Definition Path : Set := list nat.

Fixpoint nodeAt (n : Node) (path : Path) : option Node :=
  match path with
  | [] => Some n
  | i :: rest =>
    match nth_error (astChildren n) i with
    | Some c => nodeAt c rest
    | None => None
    end
  end.

(** The addresses below the children [cs], the first of which has index [i]:
    those of each subtree, given by [sub], behind the index of its root. *)
Fixpoint indexedPaths (sub : Node -> list Path) (i : nat) (cs : list Node)
    : list Path :=
  match cs with
  | [] => []
  | c :: rest => map (cons i) (sub c) ++ indexedPaths sub (S i) rest
  end.

(** The addresses of all nodes of a tree, in pre-order. *)
Fixpoint preorderPaths (n : Node) : list Path :=
  [] :: indexedPaths preorderPaths 0%nat (astChildren n).

(** The members of the class-like declarations below the root, in the order
    in which the walk reaches them. *)
Definition visitedMembers (sf : Node) : list Node :=
  flat_map (fun c => if isClassLikeDeclaration c then members c else [])
           (descendants sf).

(** ** Well-formed trees *)

Definition isJSDoc (n : Node) : bool := kind n === JSDocComment.

(** The children other than JSDoc comments: the ones a token search without
    [allowJsDoc] looks at. *)
Definition ordinaryChildren (n : Node) : list Node :=
  filter (fun c => negb (isJSDoc c)) (getChildren n).

(** The nodes of [cs] lie end to end from [a] to [b]. *)
Fixpoint tiles (cs : list Node) (a b : Z) : bool :=
  match cs with
  | [] => a =? b
  | c :: rest => (pos c =? a) && tiles rest (end_ c) b
  end.

(** The text ranges below [n] are those of a parsed tree: no range is
    reversed, a token holds its own start, and the children of a node that is
    not a token (its JSDoc comments, which sit in its leading trivia, apart)
    tile its range. *)
Fixpoint wellFormedRange (txt : string) (n : Node) : bool :=
  (pos n <=? end_ n) &&
  (if isTokenKind (kind n) then skipTrivia txt (pos n) <=? end_ n
   else tiles (filter (fun c => negb (isJSDoc c)) (getChildren n)) (pos n) (end_ n)
        && forallb (fun c => isJSDoc c || wellFormedRange txt c) (getChildren n)).

Fixpoint lastNode (l : list Node) : option Node :=
  match l with
  | [] => None
  | [d] => Some d
  | _ :: rest => lastNode rest
  end.

(** What the parser guarantees of a member with decorators: the decorator
    list ends with its last decorator, inside the member, where one of the
    member's children ends, and the name, when there is one, spans a
    non-empty child that follows the decorators. *)
Definition wellFormedMember (txt : string) (m : Node) : bool :=
  match decorators m with
  | None => true
  | Some ds =>
    negb (isTokenKind (kind m))
    && match lastNode (na_elems ds) with
       | Some d => end_ d =? na_end ds
       | None => false
       end
    && (pos m <=? na_end ds) && (na_end ds <? end_ m)
    && wellFormedRange txt m
    && existsb (fun c => end_ c =? na_end ds) (ordinaryChildren m)
    && match name m with
       | None => true
       | Some nm =>
         (na_end ds <=? pos nm) && (pos nm <? end_ nm)
         && existsb (fun c => (pos c =? pos nm) && (end_ c =? end_ nm))
                    (ordinaryChildren m)
       end
  end.

(** Every member the walk reaches is well formed. *)
Definition wellFormedTree (sf : Node) : bool :=
  forallb (wellFormedMember (text sf)) (visitedMembers sf).

(** ** Sample trees *)

(** The trees the TypeScript parser builds for a few one-class sources, with
    the offsets of each node. *)
Module Samples.

Definition token (k : SyntaxKind) (p e : Z) : Node :=
  mkNode k p e "" None None None [] [] [].

Definition identifier (p e : Z) (s : string) : Node :=
  mkNode Identifier p e s None None None [] [] [].

Definition syntaxList (p e : Z) (cs : list Node) : Node :=
  mkNode SyntaxList p e "" None None None [] [] cs.

Definition plain (k : SyntaxKind) (p e : Z) (ast chs : list Node) : Node :=
  mkNode k p e "" None None None [] ast chs.

(** An empty block [{}] whose brace opens at the end of [p .. mid]. *)
Definition emptyBlock (p mid e : Z) : Node :=
  plain Block p e []
    [token OpenBraceToken p mid; syntaxList mid mid [];
     token CloseBraceToken mid e].

(** The empty parameter list [()] from [p] on. *)
Definition noParameters (p : Z) : list Node :=
  [token OpenParenToken p (p + 1); syntaxList (p + 1) (p + 1) [];
   token CloseParenToken (p + 1) (p + 2)].

(** [class A { ... }] at the start of a file, closed at [e]. *)
Definition classA (e : Z) (ms : list Node) : Node :=
  mkNode ClassDeclaration 0 e "" None None (Some (identifier 5 7 "A")) ms
    (identifier 5 7 "A" :: ms)
    [token ClassKeyword 0 5; identifier 5 7 "A"; token OpenBraceToken 7 9;
     syntaxList 9 (e - 2) ms; token CloseBraceToken (e - 2) e].

Definition sourceFileOf (txt : string) (statements : list Node) : Node :=
  let e := Z.of_nat (String.length txt) in
  mkNode SourceFile 0 e txt None None None []
    (statements ++ [token EndOfFileToken e e])
    [syntaxList 0 e statements; token EndOfFileToken e e].

(** A method without decorators or modifiers, named by [nm], whose
    parameter list starts where the name ends. *)
Definition plainMethod (nm : Node) (e : Z) : Node :=
  let body := emptyBlock (end_ nm + 2) (end_ nm + 4) e in
  mkNode MethodDeclaration (pos nm) e "" None None (Some nm) []
    [nm; body] (nm :: noParameters (end_ nm) ++ [body]).

(** [class A { foo() {} }] *)
Definition fooMethod : Node := plainMethod (identifier 9 13 "foo") 18.
Definition fooSource : Node :=
  sourceFileOf "class A { foo() {} }" [classA 20 [fooMethod]].

(** [class A { private foo() {} }] *)
Definition privateMethod : Node :=
  let nm := identifier 17 21 "foo" in
  let private := token PrivateKeyword 9 17 in
  let body := emptyBlock 23 25 26 in
  mkNode MethodDeclaration 9 26 "" None
    (Some (mkNodeArray 9 17 [private])) (Some nm) []
    [private; nm; body]
    (syntaxList 9 17 [private] :: nm :: noParameters 21 ++ [body]).
Definition privateSource : Node :=
  sourceFileOf "class A { private foo() {} }" [classA 28 [privateMethod]].

(** [class A { prop: string; }] *)
Definition plainProperty : Node :=
  let nm := identifier 9 14 "prop" in
  let ty := token StringKeyword 15 22 in
  mkNode PropertyDeclaration 9 23 "" None None (Some nm) [] [nm; ty]
    [nm; token ColonToken 14 15; ty; token SemicolonToken 22 23].
Definition plainPropertySource : Node :=
  sourceFileOf "class A { prop: string; }" [classA 25 [plainProperty]].

(** [class A { 'foo'() {} }] *)
Definition quotedMethod : Node :=
  plainMethod (mkNode StringLiteral 9 15 "foo" None None None [] [] []) 20.
Definition quotedSource : Node :=
  sourceFileOf "class A { 'foo'() {} }" [classA 22 [quotedMethod]].

(** [@dec] in [class A { @dec static foo() {} }] *)
Definition decDecorator : Node :=
  plain Decorator 9 14 [identifier 11 14 "dec"]
    [token AtToken 9 11; identifier 11 14 "dec"].

(** [class A { @dec static foo() {} }] *)
Definition staticMethod : Node :=
  let nm := identifier 21 25 "foo" in
  let static := token StaticKeyword 14 21 in
  let body := emptyBlock 27 29 30 in
  mkNode MethodDeclaration 9 30 ""
    (Some (mkNodeArray 9 14 [decDecorator]))
    (Some (mkNodeArray 14 21 [static]))
    (Some nm) []
    [decDecorator; static; nm; body]
    (syntaxList 9 14 [decDecorator] :: syntaxList 14 21 [static] :: nm
     :: noParameters 25 ++ [body]).
Definition staticSource : Node :=
  sourceFileOf "class A { @dec static foo() {} }" [classA 32 [staticMethod]].

(** [@dec()] in [class A { @dec()foo() {} }] *)
Definition callDecorator : Node :=
  let callee := identifier 11 14 "dec" in
  let call :=
    plain CallExpression 11 16 [callee]
      [callee; token OpenParenToken 14 15; syntaxList 15 15 [];
       token CloseParenToken 15 16] in
  plain Decorator 9 16 [call] [token AtToken 9 11; call].

(** [class A { @dec()foo() {} }]: the name follows the decorator with
    nothing in between. *)
Definition flushMethod : Node :=
  let nm := identifier 16 19 "foo" in
  let body := emptyBlock 21 23 24 in
  mkNode MethodDeclaration 9 24 ""
    (Some (mkNodeArray 9 16 [callDecorator])) None (Some nm) []
    [callDecorator; nm; body]
    (syntaxList 9 16 [callDecorator] :: nm :: noParameters 19 ++ [body]).
Definition flushSource : Node :=
  sourceFileOf "class A { @dec()foo() {} }" [classA 26 [flushMethod]].

(** [class A { @dec prop: string; }] *)
Definition decoratedProperty : Node :=
  let nm := identifier 14 19 "prop" in
  let ty := token StringKeyword 20 27 in
  mkNode PropertyDeclaration 9 28 ""
    (Some (mkNodeArray 9 14 [decDecorator])) None (Some nm) []
    [decDecorator; nm; ty]
    [syntaxList 9 14 [decDecorator]; nm; token ColonToken 19 20; ty;
     token SemicolonToken 27 28].
Definition decoratedPropertySource : Node :=
  sourceFileOf "class A { @dec prop: string; }"
    [classA 30 [decoratedProperty]].

(** [class A { constructor(public x: number, y: number) {} }] *)
Definition parameterX : Node :=
  let public := token PublicKeyword 22 28 in
  let nm := identifier 28 30 "x" in
  let ty := token NumberKeyword 31 38 in
  mkNode Parameter_ 22 38 "" None (Some (mkNodeArray 22 28 [public]))
    (Some nm) [] [public; nm; ty]
    [syntaxList 22 28 [public]; nm; token ColonToken 30 31; ty].
Definition parameterY : Node :=
  let nm := identifier 39 41 "y" in
  let ty := token NumberKeyword 42 49 in
  mkNode Parameter_ 39 49 "" None None (Some nm) [] [nm; ty]
    [nm; token ColonToken 41 42; ty].
Definition constructorA : Node :=
  let body := emptyBlock 50 52 53 in
  mkNode Constructor 9 53 "" None None None []
    [parameterX; parameterY; body]
    [token ConstructorKeyword 9 21; token OpenParenToken 21 22;
     syntaxList 22 49 [parameterX; token CommaToken 38 39; parameterY];
     token CloseParenToken 49 50; body].
Definition constructorSource : Node :=
  sourceFileOf "class A { constructor(public x: number, y: number) {} }"
    [classA 55 [constructorA]].

(** [class A { get x() { return class { bar() {} }; } }]: a class nested in
    the body of an accessor of another. *)
Definition barMethod : Node := plainMethod (identifier 34 38 "bar") 43.
Definition innerClass : Node :=
  mkNode ClassExpression 26 45 "" None None None [barMethod] [barMethod]
    [token ClassKeyword 26 32; token OpenBraceToken 32 34;
     syntaxList 34 43 [barMethod]; token CloseBraceToken 43 45].
Definition getterX : Node :=
  let nm := identifier 13 15 "x" in
  let returnStatement :=
    plain (OtherNode 0) 19 46 [innerClass]
      [token (OtherToken 0) 19 26; innerClass; token SemicolonToken 45 46] in
  let body :=
    plain Block 17 48 [returnStatement]
      [token OpenBraceToken 17 19; syntaxList 19 46 [returnStatement];
       token CloseBraceToken 46 48] in
  mkNode GetAccessor 9 48 "" None None (Some nm) [] [nm; body]
    (token GetKeyword 9 13 :: nm :: noParameters 15 ++ [body]).
Definition nestedSource : Node :=
  sourceFileOf "class A { get x() { return class { bar() {} }; } }"
    [classA 50 [getterX]].

End Samples.

Import Samples.


(** ** What [check] reports *)

(** The node [check] hands to [addFailureAtNode]. *)
Definition reportedNode (node : Node) : option Node :=
  if kind node === Constructor
  then getChildOfKind node ConstructorKeyword
  else match name node with
       | Some n => Some n
       | None => Some node
       end.

(** The name [check] hands to [FAILURE_STRING_FACTORY]. *)
Definition reportedName (node : Node) : option string :=
  match name node with
  | Some n => if kind n === Identifier then Some (text n) else None
  | None => None
  end.

(** The failure [check] builds for a node without visibility modifier. *)
Definition report (sf node : Node) : Error + RuleFailure :=
  match typeToString node with
  | inl e => inl e
  | inr memberType =>
    match getInsertionPosition node sf with
    | inl e => inl e
    | inr insertion =>
      match reportedNode node with
      | None => inl TypeError
      | Some n =>
        inr (mkRuleFailure (Z.min (getStart n sf) (end_ sf))
                           (Z.min (getEnd n) (end_ sf))
                           (Rule.FAILURE_STRING_FACTORY memberType
                                                        (reportedName node))
                           (Some (appendText insertion "public ")))
      end
    end
  end.

(** The two forms of the message, written out. *)
Definition namedMessage (label memberName : string) : string :=
  String.append "The "
    (String.append label
       (String.append " '"
          (String.append memberName
             "' must be marked either 'private', 'public', or 'protected'"))).

Definition unnamedMessage (label : string) : string :=
  String.append "The "
    (String.append label
       " must be marked either 'private', 'public', or 'protected'").

(** The token found at offset [p]: it begins at [p], ends later, and its
    text starts inside it. *)
Definition tokenAt (txt : string) (p : Z) (tok : Node) : Prop :=
  isTokenKind (kind tok) = true /\ pos tok = p /\ p < end_ tok
  /\ skipTrivia txt p <= end_ tok.

(** What entering a child with [descend] yields during the search for the
    token at [p], for the children that are entered. *)
Definition enters (txt : string) (p : Z) (descend : Node -> option Node)
    (c : Node) : Prop :=
  isTokenKind (kind c) = false -> pos c = p -> p < end_ c ->
  exists tok, descend c = Some tok /\ tokenAt txt p tok
              /\ end_ tok <= end_ c.

(** Induction over a tree along [astChildren], and along [getChildren]. *)
Section NodeInduction.
Variable P : Node -> Prop.

Section Ast.
Hypothesis step : forall n, Forall P (astChildren n) -> P n.

Fixpoint Node_ast_ind (n : Node) : P n :=
  step n
    ((fix all (cs : list Node) : Forall P cs :=
        match cs with
        | [] => Forall_nil P
        | c :: rest => Forall_cons c (Node_ast_ind c) (all rest)
        end) (astChildren n)).
End Ast.

Section Children.
Hypothesis step : forall n, Forall P (getChildren n) -> P n.

Fixpoint Node_children_ind (n : Node) : P n :=
  step n
    ((fix all (cs : list Node) : Forall P cs :=
        match cs with
        | [] => Forall_nil P
        | c :: rest => Forall_cons c (Node_children_ind c) (all rest)
        end) (getChildren n)).
End Children.
End NodeInduction.

(** ** The rule's metadata and the outcome of a run *)

(** [Lint.IRuleMetadata], with the fields the rule sets. *)
Record IRuleMetadata : Set := mkRuleMetadata {
  ruleName : string;
  description : string;
  optionsDescription : string;
  options : option unit;
  type_ : string;
  typescriptOnly : bool;
  hasFix : bool
}.

(** [Rule.metadata] *)
Definition metadata : IRuleMetadata :=
  mkRuleMetadata
    "member-access-except-decorators"
    "Requires explicit visibility declarations for class members except members with decorators."
    "No options yet"
    None
    "typescript"
    true
    true.

(** The member is one [shouldCheck] lets through and [check] does not pass:
    it has to be reported. *)
Definition violates (m : Node) : bool :=
  shouldCheck m && negb (hasVisibility m).

(** The outcome of the loop body for one member, and of the loop for a list
    of members, as values: the failures pushed, or the error thrown. *)
Definition memberResult (sf m : Node) : Error + list RuleFailure :=
  if violates m
  then match report sf m with
       | inl e => inl e
       | inr f => inr [f]
       end
  else inr [].

Fixpoint membersResult (sf : Node) (ms : list Node)
    : Error + list RuleFailure :=
  match ms with
  | [] => inr []
  | m :: rest =>
    match memberResult sf m with
    | inl e => inl e
    | inr d =>
      match membersResult sf rest with
      | inl e => inl e
      | inr ds => inr (d ++ ds)
      end
    end
  end.

(** One outcome after another: the first error ends the run, otherwise the
    failures follow each other. *)
Definition thenResult (r1 r2 : Error + list RuleFailure)
    : Error + list RuleFailure :=
  match r1 with
  | inl e => inl e
  | inr d =>
    match r2 with
    | inl e => inl e
    | inr d' => inr (d ++ d')
    end
  end.

(** The source file [sf] with [cs] for the nodes [ts.forEachChild] visits in
    it: the same text and length, other statements. *)
Definition withChildren (sf : Node) (cs : list Node) : Node :=
  mkNode (kind sf) (pos sf) (end_ sf) (text sf) (decorators sf) (modifiers sf)
         (name sf) (members sf) cs (getChildren sf).

(** Two more trees: a decorated method handed over without its children (no
    parser builds it; [getTokenAtPosition] finds nothing in it), and a
    constructor that carries [private]. *)
Module OddSamples.

(** [class A { @dec foo() {} }], the method without [getChildren]. *)
Definition childlessMethod : Node :=
  let nm := identifier 14 18 "foo" in
  mkNode MethodDeclaration 9 23 ""
    (Some (mkNodeArray 9 14 [decDecorator])) None (Some nm) []
    [decDecorator; nm] [].
Definition childlessSource : Node :=
  sourceFileOf "class A { @dec foo() {} }" [classA 25 [childlessMethod]].

(** [private constructor() {}] in [class A { private constructor() {} }] *)
Definition privateConstructor : Node :=
  let private := token PrivateKeyword 9 17 in
  let body := emptyBlock 31 33 34 in
  mkNode Constructor 9 34 "" None (Some (mkNodeArray 9 17 [private])) None []
    [private; body]
    (syntaxList 9 17 [private] :: token ConstructorKeyword 17 29
     :: noParameters 29 ++ [body]).

(** [fooSource] as a host would hand it over that leaves the end-of-file
    token out of the children. *)
Definition fooSourceNoEof : Node :=
  mkNode SourceFile 0 20 "class A { foo() {} }" None None None []
    [classA 20 [fooMethod]] [syntaxList 0 20 [classA 20 [fooMethod]]].

End OddSamples.

Import OddSamples.

(** * Verification *)

(** ** Kinds *)

Lemma kind_eqb_eq (a b : SyntaxKind) : (a === b) = true <-> a = b.
Proof.
  unfold kind_eqb. destruct (SyntaxKind_eq_dec a b); split; congruence.
Qed.

Lemma kind_eqb_neq (a b : SyntaxKind) : (a === b) = false <-> a <> b.
Proof.
  unfold kind_eqb. destruct (SyntaxKind_eq_dec a b); split; congruence.
Qed.

Lemma kind_eqb_refl (a : SyntaxKind) : (a === a) = true.
Proof. now apply kind_eqb_eq. Qed.

(** ** The modifier test of [check] *)

Lemma visibility_protected_private (ms : list Node) :
  existsb (fun m => includes [ProtectedKeyword; PrivateKeyword] (kind m)) ms
    = false ->
  find (fun m => kind m === PublicKeyword) ms = None ->
  existsb (fun m => isVisibilityKeyword (kind m)) ms = false.
Proof.
  induction ms as [|m ms IH]; cbn [existsb find]; intros Hpp Hpub;
    [reflexivity|].
  destruct (kind m === PublicKeyword) eqn:Epub; [discriminate|].
  apply orb_false_iff in Hpp as [Hm Hrest].
  rewrite (IH Hrest Hpub), orb_false_r.
  apply kind_eqb_neq in Epub.
  unfold includes in Hm. simpl in Hm.
  repeat (apply orb_false_iff in Hm as [? Hm]).
  repeat match goal with
         | H : (_ === _) = false |- _ => apply kind_eqb_neq in H
         end.
  destruct (kind m); simpl; congruence.
Qed.

Lemma no_visibility_modifiers (ms : list Node) :
  existsb (fun m => isVisibilityKeyword (kind m)) ms = false ->
  existsb (fun m => includes [ProtectedKeyword; PrivateKeyword] (kind m)) ms
    = false
  /\ find (fun m => kind m === PublicKeyword) ms = None.
Proof.
  induction ms as [|m ms IH]; cbn [existsb find]; intros H;
    [split; reflexivity|].
  apply orb_false_iff in H as [Hm Hrest].
  destruct (IH Hrest) as [IH1 IH2]. rewrite IH1, IH2.
  destruct (kind m); simpl in *; try discriminate; split; reflexivity.
Qed.

(** [check] passes a member exactly when it carries one of the three
    keywords. *)
Lemma hasVisibility_false (node : Node) :
  hasVisibility node = false <->
  hasModifier (modifiers node) [ProtectedKeyword; PrivateKeyword] = false
  /\ getModifier node PublicKeyword = None.
Proof.
  unfold hasVisibility, hasModifier, getModifier.
  destruct (modifiers node) as [arr|]; [|tauto].
  split.
  - apply no_visibility_modifiers.
  - intros [H1 H2]. now apply visibility_protected_private.
Qed.

(** [check], unfolded: nothing happens to a member with a visibility
    modifier; for any other the failure of [report] is pushed, or its error
    thrown. *)
Lemma check_eq (node : Node) (ctx : WalkContext) :
  check node ctx =
  if hasVisibility node then inr (tt, ctx)
  else match report (sourceFile ctx) node with
       | inl e => inl e
       | inr f => inr (tt, mkWalkContext (sourceFile ctx) (failures ctx ++ [f]))
       end.
Proof.
  unfold check.
  destruct (hasVisibility node) eqn:Hvis.
  - destruct (hasModifier (modifiers node) [ProtectedKeyword; PrivateKeyword])
      eqn:Hpp; [reflexivity|].
    destruct (getModifier node PublicKeyword) eqn:Hpub; [reflexivity|].
    assert (hasVisibility node = false) by (apply hasVisibility_false; auto).
    congruence.
  - apply hasVisibility_false in Hvis as [Hpp Hpub].
    rewrite Hpp, Hpub.
    unfold report, bind, liftE, getSourceFile, addFailureAtNode, addFailure,
      reportedNode, reportedName, getEnd.
    destruct (typeToString node); [reflexivity|].
    destruct (getInsertionPosition node (sourceFile ctx)); [reflexivity|].
    destruct (kind node === Constructor).
    + destruct (getChildOfKind node ConstructorKeyword); reflexivity.
    + destruct (name node); reflexivity.
Qed.

Lemma emits_report (node : Node) (ctx : WalkContext) (f : RuleFailure) :
  emits node ctx f <->
  hasVisibility node = false /\ report (sourceFile ctx) node = inr f.
Proof.
  unfold emits. rewrite check_eq. split.
  - intros (ctx' & Hrun & Hfs).
    destruct (hasVisibility node).
    + injection Hrun as <-.
      apply (f_equal (@List.length _)) in Hfs. rewrite length_app in Hfs.
      simpl in Hfs. lia.
    + destruct (report (sourceFile ctx) node) as [e|f']; [discriminate|].
      injection Hrun as <-. simpl in Hfs.
      apply app_inv_head in Hfs. split; congruence.
  - intros [-> ->]. eexists. split; reflexivity.
Qed.

(** [check] pushes at most one failure, and changes nothing else. *)
Lemma check_result (node : Node) (ctx ctx' : WalkContext) (u : unit) :
  check node ctx = inr (u, ctx') ->
  ctx' = ctx \/ exists f, emits node ctx f.
Proof.
  intros Hrun. pose proof Hrun as Hrun'. rewrite check_eq in Hrun.
  destruct (hasVisibility node) eqn:Hvis.
  - left. congruence.
  - destruct (report (sourceFile ctx) node) as [e|f] eqn:Hrep; [discriminate|].
    right. exists f. apply emits_report. auto.
Qed.

(** ** The walk *)

Lemma forOf_app {A} (xs ys : list A) (body : A -> M unit) (ctx : WalkContext) :
  forOf (xs ++ ys) body ctx = (forOf xs body ;;; forOf ys body) ctx.
Proof.
  revert ctx. induction xs as [|x xs IH]; intros ctx; simpl.
  - reflexivity.
  - unfold bind in *. destruct (body x ctx) as [e|[u ctx1]]; [reflexivity|].
    apply IH.
Qed.

Lemma recur_unfold (n : Node) (ctx : WalkContext) :
  recur n ctx = (visit n ;;; forEachChild n recur) ctx.
Proof. destruct n; reflexivity. Qed.

(** The walk of a forest: [recur] never returns a truthy value, so the
    iteration of [forEachChild] never stops early. *)
Lemma forEachNode_recur (cs : list Node) :
  Forall (fun c => forall ctx,
            recur c ctx = (forOf (preorder c) visit ;;; ret None) ctx) cs ->
  forall ctx,
    forEachNode recur cs ctx
    = (forOf (flat_map preorder cs) visit ;;; ret None) ctx.
Proof.
  induction 1 as [|c rest Hc _ IH]; intros ctx; simpl.
  - reflexivity.
  - unfold bind in *. rewrite Hc.
    rewrite (forOf_app (preorder c) (flat_map preorder rest)). unfold bind.
    destruct (forOf (preorder c) visit ctx) as [e|[u ctx1]]; [reflexivity|].
    unfold ret at 1. apply IH.
Qed.

Lemma recur_preorder (n : Node) :
  forall ctx, recur n ctx = (forOf (preorder n) visit ;;; ret None) ctx.
Proof.
  induction n as [n IH] using Node_ast_ind. intros ctx.
  rewrite recur_unfold. unfold forEachChild.
  pose proof (forEachNode_recur IH) as Hrest.
  destruct n as [k p e t ds ms nm mbs ast chs]; simpl in *.
  unfold bind in *.
  destruct (visit _ ctx) as [err|[u ctx1]]; [reflexivity|].
  apply Hrest.
Qed.

Lemma walk_preorder (ctx : WalkContext) :
  walk ctx = (forOf (descendants (sourceFile ctx)) visit ;;; ret None) ctx.
Proof.
  unfold walk, forEachChild, descendants, getSourceFile, bind at 1.
  apply forEachNode_recur.
  apply Forall_forall. intros c _. apply recur_preorder.
Qed.

(** ** Tree addresses *)

Lemma indexedPaths_In (sub : Node -> list Path) (cs : list Node) :
  forall (i j : nat) (rest : Path),
    In (j :: rest) (indexedPaths sub i cs) <->
    (i <= j)%nat
    /\ exists c, nth_error cs (j - i) = Some c /\ In rest (sub c).
Proof.
  induction cs as [|c cs IH]; intros i j rest; simpl.
  - split; [tauto|]. intros (_ & c & Hc & _).
    destruct (j - i)%nat; discriminate.
  - rewrite in_app_iff, in_map_iff, IH. split.
    + intros [(x & Hx & Hin)|(Hle & c' & Hc' & Hin)].
      * injection Hx as <- <-. split; [lia|].
        exists c. rewrite Nat.sub_diag. auto.
      * split; [lia|]. exists c'.
        replace (j - i)%nat with (S (j - S i)) by lia. auto.
    + intros (Hle & c' & Hc' & Hin).
      destruct (Nat.eq_dec i j) as [->|Hne].
      * rewrite Nat.sub_diag in Hc'. injection Hc' as <-.
        left. exists rest. auto.
      * right. split; [lia|]. exists c'.
        replace (j - i)%nat with (S (j - S i)) in Hc' by lia. auto.
Qed.

Lemma indexedPaths_nonempty (sub : Node -> list Path) (cs : list Node)
    (i : nat) : ~ In [] (indexedPaths sub i cs).
Proof.
  revert i. induction cs as [|c cs IH]; intros i; simpl; [tauto|].
  rewrite in_app_iff, in_map_iff.
  intros [(x & Hx & _)|H]; [discriminate|]. exact (IH _ H).
Qed.

Lemma indexedPaths_NoDup (sub : Node -> list Path) (cs : list Node) :
  Forall (fun c => NoDup (sub c)) cs ->
  forall i, NoDup (indexedPaths sub i cs).
Proof.
  induction 1 as [|c cs Hc _ IH]; intros i; simpl; [constructor|].
  apply NoDup_app.
  - apply NoDup_map_NoDup_ForallPairs; [|exact Hc].
    intros x y _ _ Heq. now injection Heq.
  - apply IH.
  - intros path Hin Hin'. apply in_map_iff in Hin as (x & <- & _).
    apply indexedPaths_In in Hin' as [Hle _]. lia.
Qed.

(** No address of a tree is listed twice. *)
Lemma preorderPaths_NoDup (n : Node) : NoDup (preorderPaths n).
Proof.
  induction n as [n IH] using Node_ast_ind.
  destruct n as [k p e t ds ms nm mbs ast chs]; simpl in *.
  constructor.
  - apply indexedPaths_nonempty.
  - now apply indexedPaths_NoDup.
Qed.

(** Every address of a tree is listed. *)
Lemma preorderPaths_complete (n : Node) :
  forall path, In path (preorderPaths n) <-> nodeAt n path <> None.
Proof.
  induction n as [n IH] using Node_ast_ind.
  intros [|j rest].
  - destruct n; simpl. split; [discriminate|auto].
  - assert (Hn : In (j :: rest) (preorderPaths n) <->
                 In (j :: rest) (indexedPaths preorderPaths 0 (astChildren n))).
    { destruct n; simpl. split; [intros [H|H]; [discriminate|exact H]|auto]. }
    rewrite Hn, indexedPaths_In, Nat.sub_0_r. simpl.
    rewrite Forall_forall in IH. split.
    + intros (_ & c & Hc & Hin). rewrite Hc.
      apply IH; [eapply nth_error_In; eauto|exact Hin].
    + destruct (nth_error (astChildren n) j) as [c|] eqn:Hc; [|congruence].
      intros Hat. split; [lia|]. exists c. split; [reflexivity|].
      apply IH; [eapply nth_error_In; eauto|exact Hat].
Qed.

Lemma indexedPaths_nodes (n : Node) (cs : list Node) :
  Forall (fun c => map (nodeAt c) (preorderPaths c) = map Some (preorder c))
         cs ->
  forall i,
    (forall k c, nth_error cs k = Some c ->
                 nth_error (astChildren n) (i + k) = Some c) ->
    map (nodeAt n) (indexedPaths preorderPaths i cs)
    = map Some (flat_map preorder cs).
Proof.
  induction 1 as [|c cs Hc _ IH]; intros i Hnth; simpl; [reflexivity|].
  rewrite !map_app, map_map. f_equal.
  - rewrite <- Hc. apply map_ext. intros path. simpl.
    specialize (Hnth 0%nat c eq_refl). rewrite Nat.add_0_r in Hnth.
    now rewrite Hnth.
  - apply IH. intros k c' Hk.
    replace (S i + k)%nat with (i + S k)%nat by lia. now apply Hnth.
Qed.

(** The addresses in pre-order name the nodes in pre-order. *)
Lemma preorderPaths_nodes (n : Node) :
  map (nodeAt n) (preorderPaths n) = map Some (preorder n).
Proof.
  induction n as [n IH] using Node_ast_ind.
  pose proof (@indexedPaths_nodes n (astChildren n) IH 0%nat
                (fun k c H => H)) as Hrest.
  destruct n as [k p e t ds ms nm mbs ast chs]; simpl in *.
  now rewrite Hrest.
Qed.

(** ** The token after the decorators *)

Lemma skipTrivia_ge (txt : string) (p : Z) : p <= skipTrivia txt p.
Proof. unfold skipTrivia. destruct (p <? 0); lia. Qed.

Lemma getStart_ge (n sf : Node) : pos n <= getStart n sf.
Proof.
  unfold getStart. destruct (nodeIsMissing n); [lia|apply skipTrivia_ge].
Qed.

Lemma getStart_nonempty (n sf : Node) :
  pos n < end_ n -> getStart n sf = skipTrivia (text sf) (pos n).
Proof.
  intros Hne. unfold getStart, nodeIsMissing.
  replace (pos n =? end_ n) with false by lia. reflexivity.
Qed.

Lemma wellFormedRange_unfold (txt : string) (n : Node) :
  wellFormedRange txt n =
  (pos n <=? end_ n) &&
  (if isTokenKind (kind n) then skipTrivia txt (pos n) <=? end_ n
   else tiles (ordinaryChildren n) (pos n) (end_ n)
        && forallb (fun c => isJSDoc c || wellFormedRange txt c)
                   (getChildren n)).
Proof. destruct n; reflexivity. Qed.

Lemma wellFormedRange_ordered (txt : string) (n : Node) :
  wellFormedRange txt n = true -> pos n <= end_ n.
Proof.
  rewrite wellFormedRange_unfold. intros H.
  apply andb_true_iff in H as [H _]. lia.
Qed.

(** Nodes that lie end to end are in order and stay inside the range. *)
Lemma tiles_bounds (cs : list Node) :
  Forall (fun c => pos c <= end_ c) cs ->
  forall a b, tiles cs a b = true ->
    a <= b /\ forall d, In d cs -> a <= pos d /\ end_ d <= b.
Proof.
  induction 1 as [|c cs Hc _ IH]; intros a b Ht; simpl in *.
  - split; [lia|tauto].
  - apply andb_true_iff in Ht as [Hpos Ht].
    destruct (IH _ _ Ht) as [Hle Hin]. split; [lia|].
    intros d [<-|Hd]; [lia|]. specialize (Hin d Hd). lia.
Qed.

Section TokenSearch.
Variable txt : string.
Variable p : Z.
Variable descend : Node -> option Node.

(** The loop over children that tile [a .. b], where some child ends at
    [p] or the range starts there: the token at [p] is found, and every
    non-empty child from [p] on starts at [p] or after that token. *)
Lemma scanChildren_tiled (cs : list Node) :
  Forall (fun c => isJSDoc c = true
                   \/ (wellFormedRange txt c = true /\ enters txt p descend c)) cs ->
  forall a b,
    tiles (filter (fun c => negb (isJSDoc c)) cs) a b = true ->
    a <= p -> p < b ->
    (a = p \/ exists d, In d (filter (fun c => negb (isJSDoc c)) cs)
                        /\ end_ d = p) ->
    exists tok,
      scanChildren descend p false cs = Some tok
      /\ tokenAt txt p tok /\ end_ tok <= b
      /\ forall c, In c (filter (fun c => negb (isJSDoc c)) cs) ->
                   p <= pos c -> pos c < end_ c ->
                   pos c = p \/ end_ tok <= pos c.
Proof.
  induction 1 as [|c cs Hc Hcs IH]; intros a b Ht Ha Hb Hbound.
  - simpl in Ht. apply Z.eqb_eq in Ht. lia.
  - cbn [scanChildren filter] in *. unfold isJSDoc in *.
    destruct (kind c === JSDocComment) eqn:Hdoc; cbn [negb orb] in *.
    { rewrite andb_false_r. now apply (IH a b). }
    destruct Hc as [Hc|[Hwf Henter]]; [discriminate|].
    rewrite andb_true_r.
    assert (Hord : Forall (fun c => pos c <= end_ c)
                     (filter (fun c => negb (kind c === JSDocComment)) cs)).
    { apply Forall_forall. intros d Hd. apply filter_In in Hd as [Hd Hk].
      rewrite Forall_forall in Hcs. destruct (Hcs d Hd) as [Hj|[Hw _]].
      - rewrite Hj in Hk. discriminate.
      - now apply wellFormedRange_ordered in Hw. }
    cbn [tiles] in Ht.
    apply andb_true_iff in Ht as [Hpos Ht]. apply Z.eqb_eq in Hpos.
    pose proof (wellFormedRange_ordered _ _ Hwf) as Hce.
    destruct (tiles_bounds Hord _ _ Ht) as [Hcb Hin].
    rewrite Forall_forall in Hord.
    destruct (Z.gtb_spec (end_ c) p) as [Hgt|Hle].
    + assert (Hap : a = p).
      { destruct Hbound as [?|(d & [<-|Hd] & Hdp)]; [assumption|lia|].
        specialize (Hin d Hd). specialize (Hord d Hd). lia. }
      assert (Htail : forall tok, end_ tok <= end_ c ->
                forall c', c = c' \/ In c' (filter (fun c => negb (kind c === JSDocComment)) cs) ->
                  p <= pos c' -> pos c' < end_ c' ->
                  pos c' = p \/ end_ tok <= pos c').
      { intros tok Htok c' [<-|Hc'] _ _; [left; lia|].
        right. specialize (Hin c' Hc'). lia. }
      destruct (isTokenKind (kind c)) eqn:Htk.
      * exists c. split; [reflexivity|]. split; [|split; [lia|]].
        -- rewrite wellFormedRange_unfold, Htk in Hwf.
           apply andb_true_iff in Hwf as [_ Hwf].
           apply Z.leb_le in Hwf.
           split; [exact Htk|]. split; [lia|]. split; [lia|].
           replace p with (pos c) by lia. exact Hwf.
        -- apply Htail. lia.
      * destruct (Henter Htk) as (tok & Hdesc & Htok & Hend); try lia.
        exists tok. split; [exact Hdesc|]. split; [exact Htok|].
        split; [lia|]. now apply Htail.
    + destruct (IH (end_ c) b Ht) as (tok & Hscan & Htok & Hend & Hafter);
        try lia.
      { destruct Hbound as [?|(d & [<-|Hd] & Hdp)]; [left; lia|left; lia|].
        right. exists d. auto. }
      exists tok. repeat split; try assumption; try apply Htok.
      intros c' [<-|Hc'] Hp Hne; [lia|]. now apply Hafter.
Qed.
End TokenSearch.

Lemma worker_unfold (n : Node) (p : Z) (allowJsDoc : bool) :
  getTokenAtPositionWorker n p allowJsDoc
  = scanChildren (fun c => getTokenAtPositionWorker c p allowJsDoc)
                 p allowJsDoc (getChildren n).
Proof. destruct n; reflexivity. Qed.

(** The children of a well-formed node, as the token search needs them. *)
Lemma wellFormed_children (txt : string) (p : Z) (n : Node) :
  wellFormedRange txt n = true ->
  isTokenKind (kind n) = false ->
  Forall (fun c =>
            wellFormedRange txt c = true ->
            isTokenKind (kind c) = false -> pos c = p -> p < end_ c ->
            exists tok, getTokenAtPositionWorker c p false = Some tok
                        /\ tokenAt txt p tok /\ end_ tok <= end_ c)
         (getChildren n) ->
  tiles (ordinaryChildren n) (pos n) (end_ n) = true
  /\ Forall (fun c =>
               isJSDoc c = true
               \/ (wellFormedRange txt c = true
                   /\ (isTokenKind (kind c) = false -> pos c = p ->
                       p < end_ c ->
                       exists tok,
                         getTokenAtPositionWorker c p false = Some tok
                         /\ tokenAt txt p tok /\ end_ tok <= end_ c)))
            (getChildren n).
Proof.
  intros Hwf Htk IH.
  rewrite wellFormedRange_unfold, Htk in Hwf.
  apply andb_true_iff in Hwf as [_ Hwf].
  apply andb_true_iff in Hwf as [Htiles Hall].
  split; [exact Htiles|].
  rewrite forallb_forall in Hall. rewrite Forall_forall in *.
  intros c Hc. specialize (Hall c Hc). specialize (IH c Hc).
  apply orb_true_iff in Hall as [Hdoc|Hwfc]; [left; exact Hdoc|].
  right. split; [exact Hwfc|]. now apply IH.
Qed.

(** Inside a well-formed node that starts at [p], the descent reaches the
    token that starts at [p]. *)
Lemma worker_tiled (txt : string) (p : Z) (n : Node) :
  wellFormedRange txt n = true ->
  isTokenKind (kind n) = false -> pos n = p -> p < end_ n ->
  exists tok, getTokenAtPositionWorker n p false = Some tok
              /\ tokenAt txt p tok /\ end_ tok <= end_ n.
Proof.
  induction n as [n IH] using Node_children_ind.
  intros Hwf Htk Hpos Hend.
  destruct (@wellFormed_children txt p n Hwf Htk IH) as [Htiles Hall].
  rewrite worker_unfold.
  destruct (@scanChildren_tiled txt p
              (fun c => getTokenAtPositionWorker c p false) _ Hall
              (pos n) (end_ n) Htiles)
    as (tok & Hscan & Htok & Hle & _); try lia.
  exists tok. auto.
Qed.

(** The token [getInsertionPosition] looks up for a member with decorators:
    it exists, begins where the decorators end, and starts no later than the
    member's name. *)
Lemma getTokenAtPosition_decorated (sf m : Node) (ds : NodeArray Node) :
  decorators m = Some ds ->
  wellFormedMember (text sf) m = true ->
  exists tok,
    getTokenAtPosition m (na_end ds) = Some tok
    /\ tokenAt (text sf) (na_end ds) tok /\ end_ tok <= end_ m
    /\ forall nm, name m = Some nm -> getStart tok sf <= getStart nm sf.
Proof.
  intros Hds Hwf. unfold wellFormedMember in Hwf. rewrite Hds in Hwf.
  repeat (apply andb_true_iff in Hwf as [Hwf ?]).
  apply negb_true_iff in Hwf.
  match goal with H : existsb _ (ordinaryChildren m) = true |- _ =>
    apply existsb_exists in H as (d & Hd & Hdp); apply Z.eqb_eq in Hdp end.
  match goal with H : wellFormedRange _ m = true |- _ => rename H into Hr end.
  assert (IH : Forall (fun c =>
            wellFormedRange (text sf) c = true ->
            isTokenKind (kind c) = false -> pos c = na_end ds ->
            na_end ds < end_ c ->
            exists tok, getTokenAtPositionWorker c (na_end ds) false = Some tok
                        /\ tokenAt (text sf) (na_end ds) tok
                        /\ end_ tok <= end_ c)
         (getChildren m)).
  { apply Forall_forall. intros c _. apply worker_tiled. }
  destruct (@wellFormed_children (text sf) (na_end ds) m Hr Hwf IH)
    as [Htiles Hall].
  unfold getTokenAtPosition. rewrite Hwf, worker_unfold.
  replace ((na_end ds <? pos m) || (na_end ds >=? end_ m)) with false by lia.
  destruct (@scanChildren_tiled (text sf) (na_end ds)
              (fun c => getTokenAtPositionWorker c (na_end ds) false) _ Hall
              (pos m) (end_ m) Htiles)
    as (tok & Hscan & Htok & Hle & Hafter); try lia.
  { right. exists d. auto. }
  exists tok. repeat split; try assumption; try apply Htok.
  intros nm Hnm. rewrite Hnm in *.
  match goal with H : _ && _ = true |- _ =>
    apply andb_true_iff in H as [Hn Hchild];
    apply andb_true_iff in Hn as [Hn1 Hn2] end.
  apply existsb_exists in Hchild as (c & Hc & Hsame).
  apply andb_true_iff in Hsame as [Hcp Hce].
  destruct Htok as (_ & Htp & Hne & Hstart).
  rewrite (@getStart_nonempty tok sf) by lia.
  destruct (Hafter c Hc) as [Heq|Hlt]; try lia.
  - rewrite (@getStart_nonempty nm sf) by lia.
    replace (pos tok) with (pos nm) by lia. lia.
  - pose proof (getStart_ge nm sf). rewrite Htp. lia.
Qed.

(** ** The failures of a run *)

Lemma shouldCheck_kinds (m : Node) :
  shouldCheck m = true <->
  kind m = GetAccessor \/ kind m = SetAccessor \/ kind m = MethodDeclaration
  \/ (kind m = PropertyDeclaration /\ decorators m = None).
Proof.
  unfold shouldCheck. split.
  - destruct (kind m); try discriminate; auto.
    destruct (decorators m); [discriminate|auto 6].
  - intros [->|[->|[->|[-> ->]]]]; reflexivity.
Qed.

(** For a well-formed member that [typeToString] has a label for, nothing
    is thrown. *)
Lemma report_labelled (sf m : Node) (label : string) :
  typeToString m = inr label ->
  wellFormedMember (text sf) m = true ->
  exists f, report sf m = inr f.
Proof.
  intros Hlabel Hwf. unfold report, reportedNode, getInsertionPosition.
  rewrite Hlabel.
  assert (Hctor : (kind m === Constructor) = false).
  { apply kind_eqb_neq. intros Hk. unfold typeToString in Hlabel.
    rewrite Hk in Hlabel. discriminate. }
  rewrite Hctor.
  assert (Hins : exists n,
            match decorators m with
            | None => Some m
            | Some ds => getTokenAtPosition m (na_end ds)
            end = Some n).
  { destruct (decorators m) as [ds|] eqn:Hds; [|eauto].
    destruct (@getTokenAtPosition_decorated sf m ds Hds Hwf)
      as (tok & Htok & _).
    eauto. }
  destruct Hins as (n & ->).
  destruct (name m); eauto.
Qed.

Lemma shouldCheck_labelled (m : Node) :
  shouldCheck m = true -> exists label, typeToString m = inr label.
Proof.
  intros Hsc. apply shouldCheck_kinds in Hsc. unfold typeToString.
  destruct Hsc as [->|[->|[->|[-> _]]]]; eauto.
Qed.

Lemma report_wellFormed (sf m : Node) :
  shouldCheck m = true ->
  wellFormedMember (text sf) m = true ->
  exists f, report sf m = inr f.
Proof.
  intros Hsc Hwf. destruct (shouldCheck_labelled m Hsc) as (label & Hlabel).
  exact (@report_labelled sf m label Hlabel Hwf).
Qed.

Lemma checkMember_eq (m : Node) (ctx : WalkContext) :
  checkMember m ctx =
  if shouldCheck m && negb (hasVisibility m)
  then match report (sourceFile ctx) m with
       | inl e => inl e
       | inr f => inr (tt, mkWalkContext (sourceFile ctx) (failures ctx ++ [f]))
       end
  else inr (tt, ctx).
Proof.
  unfold checkMember. destruct (shouldCheck m); [|reflexivity].
  rewrite check_eq. destruct (hasVisibility m); reflexivity.
Qed.

Lemma memberDiagnostics_eq (sf m : Node) :
  memberDiagnostics sf m =
  if shouldCheck m && negb (hasVisibility m)
  then match report sf m with inl _ => [] | inr f => [f] end
  else [].
Proof.
  unfold memberDiagnostics. rewrite checkMember_eq. simpl.
  destruct (shouldCheck m && negb (hasVisibility m)); [|reflexivity].
  destruct (report sf m); reflexivity.
Qed.

(** The loop body on a well-formed member appends the member's own
    diagnostics to the failures pushed so far. *)
Lemma checkMember_wellFormed (sf m : Node) (fs : list RuleFailure) :
  wellFormedMember (text sf) m = true ->
  checkMember m (mkWalkContext sf fs)
  = inr (tt, mkWalkContext sf (fs ++ memberDiagnostics sf m)).
Proof.
  intros Hwf. rewrite checkMember_eq, memberDiagnostics_eq. simpl.
  destruct (shouldCheck m) eqn:Hsc; simpl; [|now rewrite app_nil_r].
  destruct (hasVisibility m); simpl; [now rewrite app_nil_r|].
  destruct (@report_wellFormed sf m Hsc Hwf) as (f & ->). reflexivity.
Qed.

Lemma forOf_checkMember (sf : Node) (ms : list Node) :
  forallb (wellFormedMember (text sf)) ms = true ->
  forall fs,
    forOf ms checkMember (mkWalkContext sf fs)
    = inr (tt, mkWalkContext sf (fs ++ flat_map (memberDiagnostics sf) ms)).
Proof.
  induction ms as [|m ms IH]; intros Hwf fs; simpl in *.
  - now rewrite app_nil_r.
  - apply andb_true_iff in Hwf as [Hm Hms].
    unfold bind. rewrite (@checkMember_wellFormed sf m fs Hm), (IH Hms).
    now rewrite app_assoc.
Qed.

Lemma forOf_visit (cs : list Node) (ctx : WalkContext) :
  forOf cs visit ctx
  = forOf (flat_map (fun c => if isClassLikeDeclaration c
                              then members c else []) cs)
          checkMember ctx.
Proof.
  revert ctx. induction cs as [|c cs IH]; intros ctx; simpl; [reflexivity|].
  rewrite forOf_app. unfold bind, visit.
  destruct (isClassLikeDeclaration c).
  - destruct (forOf (members c) checkMember ctx) as [e|[u ctx1]];
      [reflexivity|apply IH].
  - apply IH.
Qed.

(** On a well-formed tree [apply] returns, and what it returns are the
    diagnostics of the members of the classes below the root, class by class
    in pre-order and member by member. *)
Lemma apply_diagnostics (sf : Node) :
  wellFormedTree sf = true ->
  apply sf = inr (flat_map (memberDiagnostics sf) (visitedMembers sf)).
Proof.
  intros Hwf. unfold apply. rewrite walk_preorder. unfold bind. simpl.
  rewrite forOf_visit. fold (visitedMembers sf).
  now rewrite (@forOf_checkMember sf _ Hwf).
Qed.

(** ** Sample runs *)

Example apply_fooSource :
  apply fooSource
  = inr [mkRuleFailure 10 13
           "The class method 'foo' must be marked either 'private', 'public', or 'protected'"
           (Some (mkReplacement 10 0 "public "))].
Proof. reflexivity. Qed.

Example apply_staticSource :
  apply staticSource
  = inr [mkRuleFailure 22 25
           "The class method 'foo' must be marked either 'private', 'public', or 'protected'"
           (Some (mkReplacement 15 0 "public "))].
Proof. reflexivity. Qed.

Example apply_decoratedPropertySource : apply decoratedPropertySource = inr [].
Proof. reflexivity. Qed.

Example apply_privateSource : apply privateSource = inr [].
Proof. reflexivity. Qed.

Example apply_plainPropertySource :
  apply plainPropertySource
  = inr [mkRuleFailure 10 14
           "The class property 'prop' must be marked either 'private', 'public', or 'protected'"
           (Some (mkReplacement 10 0 "public "))].
Proof. reflexivity. Qed.

(** The sample trees are well formed, and so are the ranges of all their
    nodes. *)
Example samples_wellFormed :
  forallb (fun sf => wellFormedTree sf && wellFormedRange (text sf) sf)
    [fooSource; privateSource; plainPropertySource; quotedSource;
     staticSource; flushSource; decoratedPropertySource; constructorSource;
     nestedSource] = true.
Proof. reflexivity. Qed.

(** ** The message *)

Lemma append_assoc (a b c : string) :
  String.append (String.append a b) c = String.append a (String.append b c).
Proof. induction a as [|x a IH]; simpl; [reflexivity|now rewrite IH]. Qed.

Lemma FAILURE_STRING_FACTORY_named (label memberName : string) :
  Rule.FAILURE_STRING_FACTORY label (Some memberName)
  = namedMessage label memberName.
Proof.
  unfold Rule.FAILURE_STRING_FACTORY, namedMessage.
  now rewrite !append_assoc.
Qed.

Lemma FAILURE_STRING_FACTORY_unnamed (label : string) :
  Rule.FAILURE_STRING_FACTORY label None = unnamedMessage label.
Proof. reflexivity. Qed.

(** What an emitted failure is made of. *)
Lemma emits_parts (node : Node) (ctx : WalkContext) (f : RuleFailure) :
  emits node ctx f ->
  hasVisibility node = false
  /\ exists label insertion n,
       typeToString node = inr label
       /\ getInsertionPosition node (sourceFile ctx) = inr insertion
       /\ reportedNode node = Some n
       /\ f = mkRuleFailure
                (Z.min (getStart n (sourceFile ctx)) (end_ (sourceFile ctx)))
                (Z.min (getEnd n) (end_ (sourceFile ctx)))
                (Rule.FAILURE_STRING_FACTORY label (reportedName node))
                (Some (appendText insertion "public ")).
Proof.
  intros Hemit. apply emits_report in Hemit as [Hvis Hrep].
  split; [exact Hvis|]. unfold report in Hrep.
  destruct (typeToString node) as [e|label]; [discriminate|].
  destruct (getInsertionPosition node (sourceFile ctx)) as [e|insertion];
    [discriminate|].
  destruct (reportedNode node) as [n|]; [|discriminate].
  injection Hrep as <-. exists label, insertion, n. auto.
Qed.

(** [check] throws on a constructor that has no visibility modifier: no
    failure is ever emitted for one. *)
Lemma emits_not_constructor (node : Node) (ctx : WalkContext) (f : RuleFailure) :
  emits node ctx f -> kind node <> Constructor.
Proof.
  intros Hemit Hk. apply emits_parts in Hemit as (_ & label & _ & _ & Hl & _).
  unfold typeToString in Hl. rewrite Hk in Hl. discriminate.
Qed.

(** C6.  [typeToString] has a label for five kinds of node only.  On a node
    of any other kind it throws the error that names the kind, it returns no
    label at all, and a [check] that gets as far as the label throws the same
    error instead of pushing a failure. *)
Theorem typeToString_unhandled (node : Node) :
  kind node <> MethodDeclaration ->
  kind node <> PropertyDeclaration ->
  kind node <> GetAccessor ->
  kind node <> SetAccessor ->
  kind node <> Parameter_ ->
  typeToString node = inl (UnhandledNodeType (kind node))
  /\ (forall label, typeToString node <> inr label)
  /\ (forall ctx, hasVisibility node = false ->
                  check node ctx = inl (UnhandledNodeType (kind node))).
Proof.
  intros Hm Hp Hg Hs Hpar.
  assert (Hthrow : typeToString node = inl (UnhandledNodeType (kind node))).
  { unfold typeToString. destruct (kind node); congruence. }
  split; [exact Hthrow|]. split.
  - intros label. rewrite Hthrow. discriminate.
  - intros ctx Hvis. rewrite check_eq, Hvis. unfold report.
    now rewrite Hthrow.
Qed.

Lemma typeToString_unhandled_witness :
  kind constructorA = Constructor
  /\ typeToString constructorA = inl (UnhandledNodeType Constructor)
  /\ check constructorA (mkWalkContext constructorSource [])
     = inl (UnhandledNodeType Constructor).
Proof.
  split; [reflexivity|].
  destruct (@typeToString_unhandled constructorA) as (Hthrow & _ & Hcheck);
    try (simpl; discriminate).
  split; [exact Hthrow|]. apply Hcheck. reflexivity.
Defined.




(** C10.  When the name of the member is not an identifier (a string
    literal, a number, a computed name), the emitted message is the one of
    an unnamed member, without the quoted name, and the location is still
    that of the name. *)
Theorem non_identifier_name_omitted (node nm : Node) (ctx : WalkContext)
    (f : RuleFailure) :
  emits node ctx f ->
  name node = Some nm ->
  kind nm <> Identifier ->
  exists label,
    typeToString node = inr label
    /\ failure f = unnamedMessage label
    /\ startPosition f
       = Z.min (getStart nm (sourceFile ctx)) (end_ (sourceFile ctx))
    /\ endPosition f = Z.min (getEnd nm) (end_ (sourceFile ctx)).
Proof.
  intros Hemit Hnm Hkind.
  pose proof (emits_not_constructor Hemit) as Hctor.
  apply emits_parts in Hemit as (_ & label & ins & n & Hl & _ & Hn & ->).
  exists label. simpl. split; [exact Hl|].
  unfold reportedNode in Hn. unfold reportedName.
  apply kind_eqb_neq in Hctor, Hkind. rewrite Hctor, Hnm in Hn.
  rewrite Hnm, Hkind. injection Hn as <-. auto.
Qed.

Lemma emits_quotedMethod :
  emits quotedMethod (mkWalkContext quotedSource [])
    (mkRuleFailure 10 15 (unnamedMessage "class method")
                   (Some (mkReplacement 10 0 "public "))).
Proof. eexists. split; [vm_compute; reflexivity|reflexivity]. Qed.

Lemma non_identifier_name_omitted_witness :
  let f := mkRuleFailure 10 15 (unnamedMessage "class method")
             (Some (mkReplacement 10 0 "public ")) in
  let nm := mkNode StringLiteral 9 15 "foo" None None None [] [] [] in
  emits quotedMethod (mkWalkContext quotedSource []) f
  /\ name quotedMethod = Some nm
  /\ kind nm <> Identifier
  /\ exists label,
       typeToString quotedMethod = inr label
       /\ failure f = unnamedMessage label.
Proof.
  intros f nm.
  assert (Hemit : emits quotedMethod (mkWalkContext quotedSource []) f).
  { exists (mkWalkContext quotedSource [f]). split; reflexivity. }
  assert (Hkind : kind nm <> Identifier) by (simpl; discriminate).
  split; [exact Hemit|]. split; [reflexivity|]. split; [exact Hkind|].
  destruct (@non_identifier_name_omitted quotedMethod nm _ _ Hemit eq_refl
              Hkind) as (label & Hl & Hmsg & _).
  exists label. auto.
Defined.

(** C4, as the code has it.  The message of an emitted failure names the
    member exactly when its name is an identifier: it is then
    [The <type> '<name>' must be marked either 'private', 'public', or
    'protected'], with the label of the member's kind and the text of the
    identifier.  For a member without name, and for one whose name is not an
    identifier, the quoted name and the space before it are left out. *)
Theorem failure_message (node : Node) (ctx : WalkContext) (f : RuleFailure) :
  emits node ctx f ->
  exists label,
    typeToString node = inr label
    /\ (forall nm, name node = Some nm -> kind nm = Identifier ->
                   failure f = namedMessage label (text nm))
    /\ (forall nm, name node = Some nm -> kind nm <> Identifier ->
                   failure f = unnamedMessage label)
    /\ (name node = None -> failure f = unnamedMessage label).
Proof.
  intros Hemit.
  apply emits_parts in Hemit as (_ & label & ins & n & Hl & _ & _ & ->).
  exists label. simpl. split; [exact Hl|]. unfold reportedName.
  repeat split.
  - intros nm -> Hk. rewrite Hk, kind_eqb_refl.
    apply FAILURE_STRING_FACTORY_named.
  - intros nm -> Hk. apply kind_eqb_neq in Hk. now rewrite Hk.
  - intros ->. reflexivity.
Qed.

Lemma failure_message_witness :
  let f := mkRuleFailure 10 13 (namedMessage "class method" "foo")
             (Some (mkReplacement 10 0 "public ")) in
  emits fooMethod (mkWalkContext fooSource []) f
  /\ failure f
     = "The class method 'foo' must be marked either 'private', 'public', or 'protected'".
Proof.
  intros f.
  assert (Hemit : emits fooMethod (mkWalkContext fooSource []) f).
  { exists (mkWalkContext fooSource [f]). split; reflexivity. }
  split; [exact Hemit|].
  destruct (failure_message Hemit) as (label & Hl & Hnamed & _).
  injection Hl as <-.
  rewrite (Hnamed (identifier 9 13 "foo") eq_refl eq_refl). reflexivity.
Defined.

(** C4 as stated fails on [class A { 'foo'() {} }]: the method has a name,
    the string literal ['foo'], and the message of the failure emitted for
    it does not quote that name. *)
Lemma named_member_message_counterexample :
  exists f nm,
    emits quotedMethod (mkWalkContext quotedSource []) f
    /\ name quotedMethod = Some nm /\ text nm = "foo"
    /\ typeToString quotedMethod = inr "class method"
    /\ failure f
       = "The class method must be marked either 'private', 'public', or 'protected'"
    /\ failure f
       <> "The class method 'foo' must be marked either 'private', 'public', or 'protected'".
Proof.
  eexists. eexists. split; [exact emits_quotedMethod|].
  repeat split; try reflexivity. simpl. discriminate.
Qed.

(** ** The fix *)

Lemma emits_flushMethod :
  emits flushMethod (mkWalkContext flushSource [])
    (mkRuleFailure 16 19 (namedMessage "class method" "foo")
                   (Some (mkReplacement 16 0 "public "))).
Proof. eexists. split; [vm_compute; reflexivity|reflexivity]. Qed.

(** C5, as the code has it.  The fix of an emitted failure inserts the text
    [public ] and replaces nothing.  For a member without decorators the
    offset is the start of the member.  For a well-formed member with
    decorators it is the start of the token that begins where the decorator
    list ends: it is not less than the end of the last decorator (and equal
    to it when the token follows at once), it lies within that token, and it
    is not greater than the start of the member's name. *)
Theorem fix_insertion (node : Node) (ctx : WalkContext) (f : RuleFailure) :
  emits node ctx f ->
  wellFormedMember (text (sourceFile ctx)) node = true ->
  exists r,
    fix_ f = Some r /\ r_length r = 0 /\ r_text r = "public "
    /\ (decorators node = None -> r_start r = getStart node (sourceFile ctx))
    /\ (forall ds, decorators node = Some ds ->
          na_end ds <= r_start r
          /\ (forall d, lastNode (na_elems ds) = Some d ->
                        end_ d <= r_start r)
          /\ (exists tok,
                getTokenAtPosition node (na_end ds) = Some tok
                /\ isTokenKind (kind tok) = true
                /\ pos tok = na_end ds
                /\ r_start r = getStart tok (sourceFile ctx)
                /\ r_start r <= end_ tok /\ end_ tok <= end_ node)
          /\ (forall nm, name node = Some nm ->
                         r_start r <= getStart nm (sourceFile ctx))).
Proof.
  intros Hemit Hwf.
  apply emits_parts in Hemit as (_ & label & ins & n & _ & Hins & _ & ->).
  exists (appendText ins "public "). simpl.
  unfold getInsertionPosition in Hins.
  do 3 (split; [reflexivity|]). split.
  - intros Hds. rewrite Hds in Hins. congruence.
  - intros ds Hds. rewrite Hds in Hins.
    destruct (@getTokenAtPosition_decorated (sourceFile ctx) node ds Hds Hwf)
      as (tok & Htok & (Hk & Hp & Hlt & Hstart) & Hend & Hname).
    rewrite Htok in Hins. injection Hins as <-.
    pose proof (getStart_ge tok (sourceFile ctx)) as Hge.
    pose proof (@getStart_nonempty tok (sourceFile ctx)) as Hskip.
    rewrite Hp in *. split; [exact Hge|]. split; [|split].
    + intros d Hd. unfold wellFormedMember in Hwf. rewrite Hds, Hd in Hwf.
      repeat (apply andb_true_iff in Hwf as [Hwf ?]). lia.
    + exists tok. rewrite Hskip by lia. auto 7.
    + exact Hname.
Qed.

Lemma fix_insertion_witness :
  let f := mkRuleFailure 22 25 (namedMessage "class method" "foo")
             (Some (mkReplacement 15 0 "public ")) in
  emits staticMethod (mkWalkContext staticSource []) f
  /\ wellFormedMember (text staticSource) staticMethod = true
  /\ exists tok,
       getTokenAtPosition staticMethod 14 = Some tok
       /\ kind tok = StaticKeyword
       /\ 15 = getStart tok staticSource.
Proof.
  intros f.
  assert (Hemit : emits staticMethod (mkWalkContext staticSource []) f).
  { exists (mkWalkContext staticSource [f]). split; reflexivity. }
  split; [exact Hemit|]. split; [reflexivity|].
  destruct (@fix_insertion staticMethod (mkWalkContext staticSource []) _
              Hemit eq_refl)
    as (r & Hr & _ & _ & _ & Hdec).
  injection Hr as <-.
  destruct (Hdec _ eq_refl) as (_ & _ & (tok & Htok & _ & _ & Hstart & _) & _).
  exists tok. split; [exact Htok|]. split; [|exact Hstart].
  vm_compute in Htok. injection Htok as <-. reflexivity.
Defined.

(** C5 as stated fails on [class A { @dec()foo() {} }]: the decorator ends at
    offset 16, where the name [foo] starts, and that is the offset of the
    fix: not an offset after the end of the last decorator. *)
Lemma strict_insertion_counterexample :
  exists f r ds d,
    emits flushMethod (mkWalkContext flushSource []) f
    /\ fix_ f = Some r
    /\ decorators flushMethod = Some ds
    /\ lastNode (na_elems ds) = Some d
    /\ end_ d = 16 /\ r_start r = 16
    /\ ~ (end_ d < r_start r).
Proof.
  do 4 eexists. split; [exact emits_flushMethod|].
  repeat split; try reflexivity. simpl. lia.
Qed.

(** ** The diagnostics of [apply] *)

Lemma forOf_checkMember_inr (sf : Node) (ms : list Node) :
  forall fs u ctx',
    forOf ms checkMember (mkWalkContext sf fs) = inr (u, ctx') ->
    ctx' = mkWalkContext sf (fs ++ flat_map (memberDiagnostics sf) ms).
Proof.
  induction ms as [|m ms IH]; intros fs u ctx' Hrun; simpl in *.
  - unfold ret in Hrun. rewrite app_nil_r. congruence.
  - unfold bind in Hrun. rewrite checkMember_eq in Hrun.
    rewrite memberDiagnostics_eq. simpl in Hrun.
    destruct (shouldCheck m && negb (hasVisibility m)).
    + destruct (report sf m) as [e|f]; [discriminate|].
      apply IH in Hrun. now rewrite <- app_assoc in Hrun.
    + now apply IH in Hrun.
Qed.

(** Whenever [apply] returns, it returns the diagnostics of the visited
    members, in order. *)
Lemma apply_inr (sf : Node) (fs : list RuleFailure) :
  apply sf = inr fs ->
  fs = flat_map (memberDiagnostics sf) (visitedMembers sf).
Proof.
  unfold apply. rewrite walk_preorder. unfold bind. simpl.
  rewrite forOf_visit. fold (visitedMembers sf).
  destruct (forOf (visitedMembers sf) checkMember (mkWalkContext sf []))
    as [e|[u ctx']] eqn:Hrun; [discriminate|].
  apply forOf_checkMember_inr in Hrun. subst ctx'. simpl.
  intros H. now injection H as <-.
Qed.

Lemma memberDiagnostics_emits (sf m : Node) (f : RuleFailure) :
  In f (memberDiagnostics sf m) <->
  shouldCheck m = true /\ emits m (mkWalkContext sf []) f.
Proof.
  rewrite memberDiagnostics_eq, emits_report. simpl.
  destruct (shouldCheck m); simpl; [|intuition congruence].
  destruct (hasVisibility m); simpl; [intuition congruence|].
  destruct (report sf m) as [e|f']; simpl; [intuition congruence|].
  split.
  - intros [->|[]]. auto.
  - intros (_ & _ & H). left. congruence.
Qed.

(** The diagnostics of a member that the walk checks: none when it carries a
    visibility modifier, one otherwise. *)
Lemma memberDiagnostics_checked (sf m : Node) :
  shouldCheck m = true ->
  wellFormedMember (text sf) m = true ->
  (hasVisibility m = true -> memberDiagnostics sf m = [])
  /\ (hasVisibility m = false -> exists f, memberDiagnostics sf m = [f]).
Proof.
  intros Hsc Hwf. rewrite memberDiagnostics_eq, Hsc.
  split; intros ->; simpl; [reflexivity|].
  destruct (@report_wellFormed sf m Hsc Hwf) as (f & ->). eauto.
Qed.

Lemma visitedMembers_wellFormed (sf m : Node) :
  wellFormedTree sf = true ->
  In m (visitedMembers sf) ->
  wellFormedMember (text sf) m = true.
Proof.
  unfold wellFormedTree. rewrite forallb_forall. auto.
Qed.

(** C1, as the code has it.  [apply] never hands a constructor parameter to
    [check]: each of its diagnostics belongs to a member of a class-like
    declaration that [shouldCheck] lets through, whose label is therefore not
    [parameter property]; and for
    [class A { constructor(public x: number, y: number) {} }] it produces no
    diagnostic.  [check] itself, on a parameter, passes one that carries a
    visibility modifier and emits for a well-formed one that carries none a
    failure labelled [parameter property]. *)
Theorem constructor_parameters_not_walked :
  (forall sf fs f,
      apply sf = inr fs -> In f fs ->
      exists m label,
        In m (visitedMembers sf) /\ shouldCheck m = true
        /\ kind m <> Parameter_
        /\ typeToString m = inr label /\ label <> "parameter property"
        /\ emits m (mkWalkContext sf []) f)
  /\ apply constructorSource = inr []
  /\ (forall p ctx,
        kind p = Parameter_ ->
        (hasVisibility p = true -> check p ctx = inr (tt, ctx))
        /\ (hasVisibility p = false ->
            wellFormedMember (text (sourceFile ctx)) p = true ->
            exists f,
              emits p ctx f
              /\ failure f = Rule.FAILURE_STRING_FACTORY "parameter property"
                               (reportedName p))).
Proof.
  split; [|split; [reflexivity|]].
  - intros sf fs f Happly Hf. apply apply_inr in Happly. subst fs.
    apply in_flat_map in Hf as (m & Hm & Hf).
    apply memberDiagnostics_emits in Hf as [Hsc Hemit].
    pose proof Hsc as Hk. apply shouldCheck_kinds in Hk.
    assert (Hlabel : exists label, typeToString m = inr label
                                   /\ label <> "parameter property").
    { unfold typeToString.
      destruct Hk as [Hk|[Hk|[Hk|[Hk _]]]]; rewrite Hk;
        eexists; (split; [reflexivity|discriminate]). }
    destruct Hlabel as (label & Hlabel & Hne).
    exists m, label. repeat split; try assumption.
    intros Hpar. rewrite Hpar in Hk.
    destruct Hk as [Hk|[Hk|[Hk|[Hk _]]]]; discriminate.
  - intros p ctx Hk. split.
    + intros Hvis. now rewrite check_eq, Hvis.
    + intros Hvis Hwf.
      assert (Hl : typeToString p = inr "parameter property").
      { unfold typeToString. now rewrite Hk. }
      destruct (@report_labelled (sourceFile ctx) p _ Hl Hwf) as (f & Hrep).
      exists f. split; [apply emits_report; auto|].
      unfold report in Hrep. rewrite Hl in Hrep.
      destruct (getInsertionPosition p (sourceFile ctx)); [discriminate|].
      destruct (reportedNode p); [|discriminate].
      now injection Hrep as <-.
Qed.

Lemma constructor_parameters_not_walked_witness :
  kind parameterY = Parameter_
  /\ hasVisibility parameterY = false
  /\ wellFormedMember (text constructorSource) parameterY = true
  /\ exists f,
       emits parameterY (mkWalkContext constructorSource []) f
       /\ failure f
          = "The parameter property 'y' must be marked either 'private', 'public', or 'protected'".
Proof.
  do 3 (split; [reflexivity|]).
  destruct constructor_parameters_not_walked as (_ & _ & Hcheck).
  destruct (Hcheck parameterY (mkWalkContext constructorSource []) eq_refl)
    as (_ & Hemit).
  destruct (Hemit eq_refl eq_refl) as (f & Hf & Hmsg).
  exists f. split; [exact Hf|]. rewrite Hmsg. reflexivity.
Defined.

(** C1 as stated fails on
    [class A { constructor(public x: number, y: number) {} }]: [apply]
    produces no diagnostic there, not one for the parameter [y]. *)
Lemma constructor_parameter_counterexample :
  apply constructorSource = inr []
  /\ ~ (exists f, apply constructorSource = inr [f]).
Proof.
  split; [reflexivity|]. intros [f Hf]. vm_compute in Hf. discriminate Hf.
Qed.

(** C2.  On a well-formed tree [apply] returns the diagnostics of the visited
    members one after the other, and a method, get accessor or set accessor
    among them has a diagnostic exactly when it carries none of [public],
    [private] and [protected]; whether it has decorators plays no part. *)
Theorem method_accessor_diagnostics (sf : Node) :
  wellFormedTree sf = true ->
  apply sf = inr (flat_map (memberDiagnostics sf) (visitedMembers sf))
  /\ forall m,
       In m (visitedMembers sf) ->
       kind m = MethodDeclaration \/ kind m = GetAccessor
       \/ kind m = SetAccessor ->
       ((exists f, memberDiagnostics sf m = [f]) <-> hasVisibility m = false)
       /\ (memberDiagnostics sf m = [] <-> hasVisibility m = true).
Proof.
  intros Hwf. split; [now apply apply_diagnostics|].
  intros m Hm Hk.
  assert (Hsc : shouldCheck m = true).
  { apply shouldCheck_kinds. tauto. }
  pose proof (visitedMembers_wellFormed sf m Hwf Hm) as Hwfm.
  destruct (@memberDiagnostics_checked sf m Hsc Hwfm) as [Hsome Hnone].
  destruct (hasVisibility m).
  - rewrite (Hsome eq_refl). split; split; auto; try discriminate.
    intros [f Hf]. discriminate.
  - destruct (Hnone eq_refl) as (f & Hf). rewrite Hf.
    split; split; eauto; discriminate.
Qed.

Lemma method_accessor_diagnostics_witness :
  wellFormedTree staticSource = true
  /\ decorators staticMethod <> None
  /\ exists f, memberDiagnostics staticSource staticMethod = [f].
Proof.
  split; [reflexivity|]. split; [simpl; discriminate|].
  destruct (@method_accessor_diagnostics staticSource eq_refl) as [_ Hm].
  destruct (Hm staticMethod (or_introl eq_refl) (or_introl eq_refl))
    as [Hiff _].
  apply Hiff. reflexivity.
Defined.

(** C3.  On a well-formed tree a property declaration among the visited
    members has a diagnostic exactly when it has no decorators and none of
    [public], [private] and [protected]; a decorated property has none. *)
Theorem property_diagnostics (sf : Node) :
  wellFormedTree sf = true ->
  apply sf = inr (flat_map (memberDiagnostics sf) (visitedMembers sf))
  /\ forall m,
       In m (visitedMembers sf) ->
       kind m = PropertyDeclaration ->
       ((exists f, memberDiagnostics sf m = [f]) <->
        decorators m = None /\ hasVisibility m = false)
       /\ (decorators m <> None -> memberDiagnostics sf m = []).
Proof.
  intros Hwf. split; [now apply apply_diagnostics|].
  intros m Hm Hk.
  pose proof (visitedMembers_wellFormed sf m Hwf Hm) as Hwfm.
  destruct (decorators m) as [ds|] eqn:Hds.
  - assert (Hnil : memberDiagnostics sf m = []).
    { rewrite memberDiagnostics_eq. unfold shouldCheck. now rewrite Hk, Hds. }
    rewrite Hnil. split; [|auto].
    split; [intros [f Hf]; discriminate|intros [? _]; discriminate].
  - assert (Hsc : shouldCheck m = true).
    { apply shouldCheck_kinds. auto 6. }
    destruct (@memberDiagnostics_checked sf m Hsc Hwfm) as [Hsome Hnone].
    split; [|congruence].
    destruct (hasVisibility m).
    + rewrite (Hsome eq_refl).
      split; [intros [f Hf]; discriminate|intros [_ ?]; discriminate].
    + destruct (Hnone eq_refl) as (f & Hf). rewrite Hf. split; eauto.
Qed.

Lemma property_diagnostics_witness :
  wellFormedTree decoratedPropertySource = true
  /\ memberDiagnostics decoratedPropertySource decoratedProperty = [].
Proof.
  split; [reflexivity|].
  destruct (@property_diagnostics decoratedPropertySource eq_refl) as [_ Hm].
  destruct (Hm decoratedProperty (or_introl eq_refl) eq_refl) as [_ Hdec].
  apply Hdec. simpl. discriminate.
Defined.

(** ** The traversal *)

Lemma preorder_unfold (n : Node) :
  preorder n = n :: flat_map preorder (astChildren n).
Proof. destruct n; reflexivity. Qed.

Lemma nodeAt_preorder (path : Path) :
  forall n c, nodeAt n path = Some c -> In c (preorder n).
Proof.
  induction path as [|i rest IH]; intros n c Hat; rewrite preorder_unfold;
    simpl in Hat.
  - left. congruence.
  - destruct (nth_error (astChildren n) i) as [c0|] eqn:Hc0; [|discriminate].
    right. apply in_flat_map. exists c0.
    split; [eapply nth_error_In; eauto|now apply IH].
Qed.

(** A node below the root is among the descendants. *)
Lemma nodeAt_descendants (sf c : Node) (path : Path) :
  path <> [] -> nodeAt sf path = Some c -> In c (descendants sf).
Proof.
  destruct path as [|i rest]; [congruence|]. intros _ Hat. simpl in Hat.
  destruct (nth_error (astChildren sf) i) as [c0|] eqn:Hc0; [|discriminate].
  apply in_flat_map. exists c0.
  split; [eapply nth_error_In; eauto|now apply nodeAt_preorder with rest].
Qed.

(** C7.  The walk runs the step of [recur] on the nodes below the source file
    in depth-first pre-order and returns undefined, so no iteration of
    [forEachChild] is cut short; the source file itself is where it starts.
    The pre-order lists every address of the tree, each once.  The members
    of a class-like declaration at any address below the root are therefore
    among the visited members, however deep the declaration is nested, and on
    a well-formed tree [apply] returns the diagnostics of all of them. *)
Theorem walk_visits_preorder (sf : Node) :
  (forall fs,
      walk (mkWalkContext sf fs)
      = (forOf (descendants sf) visit ;;; ret None) (mkWalkContext sf fs))
  /\ (isClassLikeDeclaration sf = false ->
      forall fs,
        walk (mkWalkContext sf fs)
        = (forOf (preorder sf) visit ;;; ret None) (mkWalkContext sf fs))
  /\ preorder sf = sf :: descendants sf
  /\ map (nodeAt sf) (preorderPaths sf) = map Some (preorder sf)
  /\ NoDup (preorderPaths sf)
  /\ (forall path, nodeAt sf path <> None <-> In path (preorderPaths sf))
  /\ (forall path c m,
        path <> [] -> nodeAt sf path = Some c ->
        isClassLikeDeclaration c = true -> In m (members c) ->
        In m (visitedMembers sf))
  /\ (wellFormedTree sf = true ->
      apply sf = inr (flat_map (memberDiagnostics sf) (visitedMembers sf))).
Proof.
  split; [intros fs; apply walk_preorder|].
  split.
  { intros Hroot fs. rewrite walk_preorder, preorder_unfold. simpl.
    unfold bind, visit. now rewrite Hroot. }
  split; [apply preorder_unfold|].
  split; [apply preorderPaths_nodes|].
  split; [apply preorderPaths_NoDup|].
  split; [intros path; symmetry; apply preorderPaths_complete|].
  split; [|apply apply_diagnostics].
  intros path c m Hpath Hat Hclass Hm.
  apply in_flat_map. exists c.
  split; [now apply nodeAt_descendants with path|].
  now rewrite Hclass.
Qed.

Lemma walk_visits_preorder_witness :
  isClassLikeDeclaration nestedSource = false
  /\ wellFormedTree nestedSource = true
  /\ walk (mkWalkContext nestedSource [])
     = (forOf (preorder nestedSource) visit ;;; ret None)
         (mkWalkContext nestedSource [])
  /\ nodeAt nestedSource [0; 1; 1; 0; 0]%nat = Some innerClass
  /\ In barMethod (visitedMembers nestedSource)
  /\ apply nestedSource
     = inr [mkRuleFailure 14 15 (namedMessage "get property accessor" "x")
              (Some (mkReplacement 10 0 "public "));
            mkRuleFailure 35 38 (namedMessage "class method" "bar")
              (Some (mkReplacement 35 0 "public "))].
Proof.
  destruct (walk_visits_preorder nestedSource)
    as (_ & Hroot & _ & _ & _ & _ & Hnested & Happly).
  do 2 (split; [reflexivity|]). split; [exact (Hroot eq_refl [])|].
  split; [reflexivity|]. split.
  - apply (Hnested [0; 1; 1; 0; 0]%nat innerClass barMethod).
    + discriminate.
    + reflexivity.
    + reflexivity.
    + left. reflexivity.
  - rewrite (Happly eq_refl). reflexivity.
Defined.

(** ** Members that carry [public] *)

(** A member with a [public] modifier passes [check] and the loop body
    unchanged, whatever else it carries: once the keyword of the fix is a
    modifier of the member, nothing is emitted for it. *)
Lemma check_public_passes (node kw : Node) (arr : NodeArray Node)
    (ctx : WalkContext) :
  modifiers node = Some arr ->
  In kw (na_elems arr) ->
  kind kw = PublicKeyword ->
  check node ctx = inr (tt, ctx) /\ checkMember node ctx = inr (tt, ctx).
Proof.
  intros Hmods Hin Hk.
  assert (Hvis : hasVisibility node = true).
  { unfold hasVisibility. rewrite Hmods. apply existsb_exists.
    exists kw. split; [exact Hin|]. now rewrite Hk. }
  split.
  - now rewrite check_eq, Hvis.
  - rewrite checkMember_eq, Hvis. now rewrite andb_false_r.
Qed.

(** * Further properties of the walker *)

(** ** The loop as a value *)

Lemma checkMember_result (sf m : Node) (fs : list RuleFailure) :
  checkMember m (mkWalkContext sf fs)
  = match memberResult sf m with
    | inl e => inl e
    | inr d => inr (tt, mkWalkContext sf (fs ++ d))
    end.
Proof.
  rewrite checkMember_eq. unfold memberResult, violates. simpl.
  destruct (shouldCheck m && negb (hasVisibility m)).
  - destruct (report sf m); reflexivity.
  - now rewrite app_nil_r.
Qed.

Lemma forOf_checkMember_result (sf : Node) (ms : list Node) :
  forall fs,
    forOf ms checkMember (mkWalkContext sf fs)
    = match membersResult sf ms with
      | inl e => inl e
      | inr ds => inr (tt, mkWalkContext sf (fs ++ ds))
      end.
Proof.
  induction ms as [|m ms IH]; intros fs; simpl.
  - now rewrite app_nil_r.
  - unfold bind. rewrite checkMember_result.
    destruct (memberResult sf m) as [e|d]; [reflexivity|].
    rewrite IH. destruct (membersResult sf ms) as [e|ds]; [reflexivity|].
    now rewrite app_assoc.
Qed.

Lemma walk_result (sf : Node) (fs : list RuleFailure) :
  walk (mkWalkContext sf fs)
  = match membersResult sf (visitedMembers sf) with
    | inl e => inl e
    | inr ds => inr (None, mkWalkContext sf (fs ++ ds))
    end.
Proof.
  rewrite walk_preorder. unfold bind. simpl.
  rewrite forOf_visit. fold (visitedMembers sf).
  rewrite forOf_checkMember_result.
  destruct (membersResult sf (visitedMembers sf)); reflexivity.
Qed.

Lemma apply_result (sf : Node) :
  apply sf = membersResult sf (visitedMembers sf).
Proof.
  unfold apply. rewrite walk_result.
  destruct (membersResult sf (visitedMembers sf)); reflexivity.
Qed.

Lemma membersResult_inl (sf : Node) (ms : list Node) (e : Error) :
  membersResult sf ms = inl e ->
  exists m, In m ms /\ violates m = true /\ report sf m = inl e.
Proof.
  induction ms as [|m ms IH]; simpl; [discriminate|].
  unfold memberResult at 1.
  destruct (violates m) eqn:Hv.
  - destruct (report sf m) as [e'|f] eqn:Hrep.
    + intros H. injection H as <-. exists m. auto.
    + destruct (membersResult sf ms) as [e'|ds]; [|discriminate].
      intros H. injection H as <-.
      destruct (IH eq_refl) as (m' & Hin & Hm'). exists m'. auto.
  - destruct (membersResult sf ms) as [e'|ds]; [|discriminate].
    intros H. injection H as <-.
    destruct (IH eq_refl) as (m' & Hin & Hm'). exists m'. auto.
Qed.

Lemma membersResult_inr (sf : Node) (ms : list Node) :
  forall ds,
    membersResult sf ms = inr ds ->
    Forall2 (fun m f => report sf m = inr f) (filter violates ms) ds.
Proof.
  induction ms as [|m ms IH]; simpl; intros ds H.
  - injection H as <-. constructor.
  - unfold memberResult in H.
    destruct (violates m) eqn:Hv.
    + destruct (report sf m) as [e|f] eqn:Hrep; [discriminate|].
      destruct (membersResult sf ms) as [e|ds']; [discriminate|].
      injection H as <-. simpl. constructor; auto.
    + destruct (membersResult sf ms) as [e|ds']; [discriminate|].
      injection H as <-. simpl. auto.
Qed.

Lemma membersResult_clean (sf : Node) (ms : list Node) :
  filter violates ms = [] -> membersResult sf ms = inr [].
Proof.
  induction ms as [|m ms IH]; simpl; [reflexivity|].
  unfold memberResult. destruct (violates m); [discriminate|].
  intros H. now rewrite (IH H).
Qed.

(** The only way [report] fails on a member that [shouldCheck] lets
    through. *)
Lemma report_inl (sf m : Node) (e : Error) :
  shouldCheck m = true ->
  report sf m = inl e ->
  e = TypeError
  /\ exists ds, decorators m = Some ds
                /\ getTokenAtPosition m (na_end ds) = None.
Proof.
  intros Hsc Hrep.
  destruct (shouldCheck_labelled m Hsc) as (label & Hlabel).
  assert (Hctor : (kind m === Constructor) = false).
  { apply kind_eqb_neq. intros Hk. unfold typeToString in Hlabel.
    rewrite Hk in Hlabel. discriminate. }
  unfold report, reportedNode, getInsertionPosition in Hrep.
  rewrite Hlabel, Hctor in Hrep.
  destruct (decorators m) as [ds|].
  - destruct (getTokenAtPosition m (na_end ds)) as [tok|] eqn:Htok.
    + destruct (name m); discriminate.
    + injection Hrep as <-. split; [reflexivity|]. exists ds. auto.
  - destruct (name m); discriminate.
Qed.

(** ** What a run does to its context *)

(** X1.  A walk leaves the source file of its context alone and only appends
    to the failures: from a context that already holds failures it returns
    undefined with those failures followed by the ones [apply] returns for the
    file, and it throws exactly when [apply] does, with the same error. *)
Theorem walk_appends (sf : Node) (fs : list RuleFailure) :
  walk (mkWalkContext sf fs)
  = match apply sf with
    | inl e => inl e
    | inr ds => inr (None, mkWalkContext sf (fs ++ ds))
    end.
Proof. rewrite walk_result, apply_result. reflexivity. Qed.

(** ** Errors *)

(** X2.  [apply] never throws the unhandled-node-type error of
    [typeToString]: every member [shouldCheck] lets through has a label.
    When [apply] throws, it is the [TypeError] of [getInsertionPosition], for
    a visited member that has to be reported and has decorators after whose
    end [getTokenAtPosition] finds no token. *)
Theorem apply_throws_only_TypeError (sf : Node) (e : Error) :
  apply sf = inl e ->
  e = TypeError
  /\ exists m ds,
       In m (visitedMembers sf)
       /\ shouldCheck m = true /\ hasVisibility m = false
       /\ decorators m = Some ds
       /\ getTokenAtPosition m (na_end ds) = None.
Proof.
  rewrite apply_result. intros Hrun.
  apply membersResult_inl in Hrun as (m & Hin & Hv & Hrep).
  unfold violates in Hv. apply andb_true_iff in Hv as [Hsc Hvis].
  apply negb_true_iff in Hvis.
  destruct (@report_inl sf m e Hsc Hrep) as (He & ds & Hds & Htok).
  split; [exact He|]. exists m, ds. auto.
Qed.

Lemma apply_throws_only_TypeError_witness :
  apply childlessSource = inl TypeError
  /\ exists ds,
       decorators childlessMethod = Some ds
       /\ getTokenAtPosition childlessMethod (na_end ds) = None.
Proof.
  assert (Hrun : apply childlessSource = inl TypeError) by reflexivity.
  split; [exact Hrun|].
  destruct (@apply_throws_only_TypeError childlessSource TypeError Hrun)
    as (_ & m & ds & Hin & _ & _ & Hds & Htok).
  destruct Hin as [<-|[]]. exists ds. auto.
Defined.

(** ** One failure for each member to report *)

(** X3.  When [apply] returns, its failures correspond one to one, and in
    the order of the walk, to the visited members that [shouldCheck] lets
    through and that carry no visibility modifier: each such member has
    exactly one failure, the one [check] emits for it, and there is no other
    failure. *)
Theorem apply_one_failure_per_violation (sf : Node) (fs : list RuleFailure) :
  apply sf = inr fs ->
  Forall2 (fun m f => emits m (mkWalkContext sf []) f)
          (filter violates (visitedMembers sf)) fs.
Proof.
  rewrite apply_result. intros Hrun. apply membersResult_inr in Hrun.
  assert (Hv : Forall (fun m => violates m = true)
                 (filter violates (visitedMembers sf))).
  { apply Forall_forall. intros m Hm. now apply filter_In in Hm. }
  induction Hrun as [|m f ms fs' Hrep _ IH]; constructor.
  - apply emits_report. simpl. split; [|exact Hrep].
    apply Forall_inv in Hv. unfold violates in Hv.
    apply andb_true_iff in Hv as [_ Hv]. now apply negb_true_iff in Hv.
  - apply IH. now apply Forall_inv_tail in Hv.
Qed.

Lemma apply_one_failure_per_violation_witness :
  filter violates (visitedMembers nestedSource) = [getterX; barMethod]
  /\ exists f g,
       apply nestedSource = inr [f; g]
       /\ emits getterX (mkWalkContext nestedSource []) f
       /\ emits barMethod (mkWalkContext nestedSource []) g.
Proof.
  split; [reflexivity|].
  assert (Hrun : exists f g, apply nestedSource = inr [f; g]).
  { do 2 eexists. vm_compute. reflexivity. }
  destruct Hrun as (f & g & Hrun). exists f, g. split; [exact Hrun|].
  pose proof (@apply_one_failure_per_violation nestedSource _ Hrun) as Hall.
  change (filter violates (visitedMembers nestedSource))
    with [getterX; barMethod] in Hall.
  inversion Hall as [|? ? ? ? Hf Hrest]; subst.
  inversion Hrest as [|? ? ? ? Hg _]; subst. auto.
Defined.

(** X4.  [apply] returns the empty list exactly when no visited member has
    to be reported: without such a member it returns the empty list and does
    not throw, whatever the shape of the tree, and an empty result means that
    there is none. *)
Theorem apply_empty_iff (sf : Node) :
  apply sf = inr [] <-> filter violates (visitedMembers sf) = [].
Proof.
  split.
  - intros Hrun. rewrite apply_result in Hrun.
    apply membersResult_inr in Hrun. now inversion Hrun.
  - intros Hclean. rewrite apply_result. now apply membersResult_clean.
Qed.

Lemma apply_empty_iff_witness :
  filter violates (visitedMembers constructorSource) = []
  /\ apply constructorSource = inr [].
Proof.
  assert (Hclean : filter violates (visitedMembers constructorSource) = [])
    by reflexivity.
  split; [exact Hclean|]. now apply (apply_empty_iff constructorSource).
Defined.

(** X5.  [check] returns with the context unchanged exactly when the node
    carries [public], [private] or [protected] among its modifiers.  The
    modifiers are looked at before anything else, so such a node passes
    whatever its kind and its shape, a constructor included; a node without
    them never leaves the context as it was: a failure is pushed or an error
    thrown. *)
Theorem check_passes_iff (node : Node) (ctx : WalkContext) :
  check node ctx = inr (tt, ctx) <-> hasVisibility node = true.
Proof.
  rewrite check_eq. destruct (hasVisibility node); split; auto.
  - destruct (report (sourceFile ctx) node) as [e|f]; [discriminate|].
    intros H. injection H as H.
    apply (f_equal failures) in H. simpl in H.
    apply (f_equal (@List.length _)) in H. rewrite length_app in H.
    simpl in H. lia.
  - discriminate.
Qed.

Lemma check_passes_iff_witness :
  hasVisibility privateConstructor = true
  /\ (forall label, typeToString privateConstructor <> inr label)
  /\ check privateConstructor (mkWalkContext fooSource [])
     = inr (tt, mkWalkContext fooSource []).
Proof.
  split; [reflexivity|]. split; [intros label; simpl; discriminate|].
  apply check_passes_iff. reflexivity.
Defined.

(** ** What a diagnostic depends on *)

Lemma report_local (sf sf' m : Node) :
  text sf = text sf' -> end_ sf = end_ sf' -> report sf m = report sf' m.
Proof.
  intros Htext Hend.
  unfold report, getInsertionPosition, getStart. now rewrite Htext, Hend.
Qed.

Lemma membersResult_ext (sf sf' : Node) (ms : list Node) :
  (forall m, report sf m = report sf' m) ->
  membersResult sf ms = membersResult sf' ms.
Proof.
  intros Hrep. induction ms as [|m ms IH]; simpl; [reflexivity|].
  unfold memberResult. now rewrite Hrep, IH.
Qed.

(** X6.  The diagnostics of a member depend on the source file only through
    its text and its length: [check] reads nothing else of the tree around
    the member.  Two source files with the same text and length that lead the
    walk to the same members get the same result from [apply], failures and
    errors alike. *)
Theorem diagnostics_local (sf sf' : Node) :
  text sf = text sf' ->
  end_ sf = end_ sf' ->
  (forall m, memberDiagnostics sf m = memberDiagnostics sf' m)
  /\ (visitedMembers sf = visitedMembers sf' -> apply sf = apply sf').
Proof.
  intros Htext Hend.
  pose proof (fun m => @report_local sf sf' m Htext Hend) as Hrep.
  split.
  - intros m. rewrite !memberDiagnostics_eq. now rewrite Hrep.
  - intros Hms. rewrite !apply_result, Hms. now apply membersResult_ext.
Qed.

Lemma diagnostics_local_witness :
  text fooSource = text fooSourceNoEof
  /\ end_ fooSource = end_ fooSourceNoEof
  /\ astChildren fooSource <> astChildren fooSourceNoEof
  /\ apply fooSource = apply fooSourceNoEof.
Proof.
  do 2 (split; [reflexivity|]). split; [simpl; discriminate|].
  destruct (@diagnostics_local fooSource fooSourceNoEof eq_refl eq_refl)
    as [_ Happly].
  apply Happly. reflexivity.
Defined.

(** ** Labels and messages *)

Lemma typeToString_labels (node : Node) (label : string) :
  typeToString node = inr label ->
  (kind node = MethodDeclaration /\ label = "class method")
  \/ (kind node = PropertyDeclaration /\ label = "class property")
  \/ (kind node = GetAccessor /\ label = "get property accessor")
  \/ (kind node = SetAccessor /\ label = "set property accessor")
  \/ (kind node = Parameter_ /\ label = "parameter property").
Proof.
  unfold typeToString.
  destruct (kind node); try discriminate; intros H; injection H as <-;
    auto 10.
Qed.

(** X7.  The label tells the kind: two nodes for which [typeToString]
    returns the same label are of the same kind. *)
Theorem typeToString_injective (a b : Node) (label : string) :
  typeToString a = inr label ->
  typeToString b = inr label ->
  kind a = kind b.
Proof.
  intros Ha Hb.
  apply typeToString_labels in Ha, Hb.
  destruct Ha as [[-> ->]|[[-> ->]|[[-> ->]|[[-> ->]|[-> ->]]]]];
    destruct Hb as [[-> Hl]|[[-> Hl]|[[-> Hl]|[[-> Hl]|[-> Hl]]]]];
    try reflexivity; discriminate Hl.
Qed.

Lemma typeToString_injective_witness :
  typeToString fooMethod = inr "class method"
  /\ typeToString barMethod = inr "class method"
  /\ kind fooMethod = kind barMethod.
Proof.
  do 2 (split; [reflexivity|]).
  exact (@typeToString_injective fooMethod barMethod "class method"
           eq_refl eq_refl).
Defined.

Lemma append_cancel_l (a b c : string) :
  String.append a b = String.append a c -> b = c.
Proof.
  induction a as [|x a IH]; simpl; intros H; [exact H|].
  injection H as H. auto.
Qed.

Lemma length_append (a b : string) :
  String.length (String.append a b)
  = (String.length a + String.length b)%nat.
Proof. induction a as [|x a IH]; simpl; [reflexivity|now rewrite IH]. Qed.

Lemma append_cancel_r (s a b : string) :
  String.append a s = String.append b s -> a = b.
Proof.
  revert b. induction a as [|x a IH]; intros [|y b] H; simpl in H.
  - reflexivity.
  - apply (f_equal String.length) in H. simpl in H.
    rewrite length_append in H. lia.
  - apply (f_equal String.length) in H. simpl in H.
    rewrite length_append in H. lia.
  - injection H as -> H. f_equal. auto.
Qed.

(** With one label, the message tells whether a name was given, and which. *)
Lemma FAILURE_STRING_FACTORY_name (label : string) (n1 n2 : option string) :
  Rule.FAILURE_STRING_FACTORY label n1 = Rule.FAILURE_STRING_FACTORY label n2 ->
  n1 = n2.
Proof.
  unfold Rule.FAILURE_STRING_FACTORY. intros H.
  apply append_cancel_l in H. apply append_cancel_l in H.
  destruct n1 as [n1|], n2 as [n2|]; simpl in H;
    try reflexivity; try discriminate H.
  injection H as H. apply append_cancel_r in H. apply append_cancel_r in H.
  now subst.
Qed.

(** X8.  The message of a failure tells the label and the name apart: for
    labels that [typeToString] returns, two calls of
    [FAILURE_STRING_FACTORY] give the same message only for the same label
    and the same name, and a message with a name is never that of a call
    without one. *)
Theorem FAILURE_STRING_FACTORY_injective (a b : Node) (la lb : string)
    (na nb : option string) :
  typeToString a = inr la ->
  typeToString b = inr lb ->
  Rule.FAILURE_STRING_FACTORY la na = Rule.FAILURE_STRING_FACTORY lb nb ->
  la = lb /\ na = nb.
Proof.
  intros Ha Hb Hmsg.
  assert (Hl : la = lb).
  { apply typeToString_labels in Ha, Hb.
    destruct Ha as [[_ ->]|[[_ ->]|[[_ ->]|[[_ ->]|[_ ->]]]]];
      destruct Hb as [[_ ->]|[[_ ->]|[[_ ->]|[[_ ->]|[_ ->]]]]];
      try reflexivity;
      unfold Rule.FAILURE_STRING_FACTORY in Hmsg; simpl in Hmsg;
      repeat (injection Hmsg as Hmsg); discriminate. }
  subst lb. split; [reflexivity|].
  now apply FAILURE_STRING_FACTORY_name with la.
Qed.

Lemma FAILURE_STRING_FACTORY_injective_witness :
  Rule.FAILURE_STRING_FACTORY "class method" (Some "foo")
  = Rule.FAILURE_STRING_FACTORY "class method" (Some "foo")
  /\ Rule.FAILURE_STRING_FACTORY "class method" (Some "foo")
     <> Rule.FAILURE_STRING_FACTORY "class property" (Some "foo")
  /\ Rule.FAILURE_STRING_FACTORY "class method" (Some "foo")
     <> Rule.FAILURE_STRING_FACTORY "class method" None.
Proof.
  split; [reflexivity|]. split; intros H.
  - destruct (@FAILURE_STRING_FACTORY_injective fooMethod plainProperty
                _ _ _ _ eq_refl eq_refl H) as [Hl _].
    discriminate Hl.
  - destruct (@FAILURE_STRING_FACTORY_injective fooMethod fooMethod
                _ _ _ _ eq_refl eq_refl H) as [_ Hn].
    discriminate Hn.
Defined.

(** ** The fix the metadata promises *)

(** X9.  The metadata says that the rule has a fix, and it has one for every
    failure: each failure [apply] returns carries a replacement, and that
    replacement inserts [public ] without removing anything. *)
Theorem every_failure_has_fix :
  hasFix metadata = true
  /\ forall sf fs f,
       apply sf = inr fs -> In f fs ->
       exists offset, fix_ f = Some (mkReplacement offset 0 "public ").
Proof.
  split; [reflexivity|].
  intros sf fs f Hrun Hf. apply apply_inr in Hrun. subst fs.
  apply in_flat_map in Hf as (m & _ & Hf).
  apply memberDiagnostics_emits in Hf as [_ Hemit].
  apply emits_parts in Hemit as (_ & label & ins & n & _ & _ & _ & ->).
  exists ins. reflexivity.
Qed.

Lemma every_failure_has_fix_witness :
  exists f offset,
    apply staticSource = inr [f]
    /\ fix_ f = Some (mkReplacement offset 0 "public ").
Proof.
  destruct every_failure_has_fix as [_ Hfix].
  assert (Hrun : exists f, apply staticSource = inr [f]).
  { eexists. vm_compute. reflexivity. }
  destruct Hrun as (f & Hrun).
  destruct (Hfix staticSource [f] f Hrun (or_introl eq_refl))
    as (offset & Hoff).
  exists f, offset. auto.
Defined.

(** ** Statements one after another *)

Lemma membersResult_app (sf : Node) (xs ys : list Node) :
  membersResult sf (xs ++ ys)
  = thenResult (membersResult sf xs) (membersResult sf ys).
Proof.
  induction xs as [|m xs IH]; simpl.
  - unfold thenResult. destruct (membersResult sf ys); reflexivity.
  - destruct (memberResult sf m) as [e|d]; [reflexivity|].
    rewrite IH. unfold thenResult.
    destruct (membersResult sf xs) as [e|ds]; [reflexivity|].
    destruct (membersResult sf ys) as [e|ds']; [reflexivity|].
    now rewrite app_assoc.
Qed.

(** X10.  The walk treats the statements of a file one after the other and
    independently: for a file whose statements are [a] followed by [b],
    [apply] returns the failures of [a] followed by those of [b], each as
    [apply] finds them with only that part in the file, and it throws the
    first error either part throws. *)
Theorem apply_statements (sf : Node) (a b : list Node) :
  apply (withChildren sf (a ++ b))
  = thenResult (apply (withChildren sf a)) (apply (withChildren sf b)).
Proof.
  rewrite !apply_result.
  assert (Hrep : forall cs ms,
            membersResult (withChildren sf cs) ms = membersResult sf ms).
  { intros cs ms. apply membersResult_ext. intros m.
    now apply report_local. }
  rewrite !Hrep. unfold visitedMembers, descendants. simpl.
  now rewrite !flat_map_app, membersResult_app.
Qed.
